(** * Deployment-config tool: the configuration-synthesis engine of [src/App.tsx]

    The development embeds the pure part of [App.tsx]: the endpoint-list
    validator ([validateValue] and the [defaultInstanceValid] callback), the
    four renderers ([getDockerCommand], [getDockerfile], [getCompose],
    [getKube]), the derived flag [hasMultipleInstances] and the share-link
    encoder ([demoParams]).

    JavaScript strings are sequences of UTF-16 code units; they are modelled
    as lists of numbers (a code unit is a number below 65536, which no
    statement below needs to assume), and every string method used by the
    source ([split], [trim], [join], [slice], [length]) is defined on that
    representation. *)

From Stdlib Require Import String Ascii DecimalString.
From Stdlib Require Import List NArith Bool Arith Lia.
Import ListNotations.

Local Open Scope N_scope.

(** ** JavaScript strings *)

Module JS.

Definition code_unit := N.
Definition jstring := list code_unit.

(** An ASCII literal of the source text, one code unit per character. *)
Definition js (s : string) : jstring :=
  map N_of_ascii (list_ascii_of_string s).

Definition NL : code_unit := 10.
Definition TAB : code_unit := 9.
Definition SP : code_unit := 32.
Definition DQ : code_unit := 34.
Definition BS : code_unit := 92.
Definition COMMA : code_unit := 44.

(** ECMAScript [WhiteSpace] and [LineTerminator] code points: what
    [String.prototype.trim] strips and what the regular expression class
    [\s] matches. *)
Definition is_ws (c : code_unit) : bool :=
  ((9 <=? c) && (c <=? 13)) || (c =? 32) || (c =? 160) || (c =? 5760)
  || ((8192 <=? c) && (c <=? 8202)) || (c =? 8232) || (c =? 8233)
  || (c =? 8239) || (c =? 8287) || (c =? 12288) || (c =? 65279).

Fixpoint dropWhile (p : code_unit -> bool) (s : jstring) : jstring :=
  match s with
  | [] => []
  | c :: r => if p c then dropWhile p r else s
  end.

Fixpoint takeWhile (p : code_unit -> bool) (s : jstring) : jstring :=
  match s with
  | [] => []
  | c :: r => if p c then c :: takeWhile p r else []
  end.

Definition trimStart (s : jstring) : jstring := dropWhile is_ws s.
Definition trimEnd (s : jstring) : jstring := rev (dropWhile is_ws (rev s)).

(** [s.trim()] *)
Definition trim (s : jstring) : jstring := trimEnd (trimStart s).

(** [s.split(sep)] for a one-character separator, the only form the source
    and its template helper use ([","] and ["\n"]).  The empty string splits
    into one empty segment. *)
Fixpoint split (sep : code_unit) (s : jstring) : list jstring :=
  match s with
  | [] => [[]]
  | c :: r =>
      if c =? sep then [] :: split sep r
      else match split sep r with
           | h :: t => (c :: h) :: t
           | [] => [[c]]
           end
  end.

(** [l.join(sep)] *)
Fixpoint join (sep : jstring) (l : list jstring) : jstring :=
  match l with
  | [] => []
  | x :: r =>
      match r with
      | [] => x
      | _ :: _ => x ++ sep ++ join sep r
      end
  end.

(** [s.slice(m)] for a non-negative [m]. *)
Definition slice (m : nat) (s : jstring) : jstring := skipn m s.

(** [s.replace(/ab/g, by)] for a two-character literal pattern [ab] and a
    one-character replacement: leftmost matches first, no re-scan of the
    text already replaced. *)
Fixpoint replace2 (a b by_ : code_unit) (s : jstring) : jstring :=
  match s with
  | [] => []
  | c :: r =>
      match r with
      | d :: r' =>
          if (c =? a) && (d =? b) then by_ :: replace2 a b by_ r'
          else c :: replace2 a b by_ r
      | [] => [c]
      end
  end.

(** [String(n)] for a non-negative integer. *)
Definition Number_toString (n : N) : jstring :=
  js (NilEmpty.string_of_uint (N.to_uint n)).

(** [needle] occurs in [s] starting at its first position. *)
Fixpoint starts_with (needle s : jstring) : bool :=
  match needle, s with
  | [], _ => true
  | _ :: _, [] => false
  | a :: n', c :: s' => (a =? c) && starts_with n' s'
  end.

(** Number of positions of [s] at which [needle] occurs. *)
Fixpoint occurrences (needle s : jstring) : nat :=
  match s with
  | [] => 0%nat
  | _ :: r => ((if starts_with needle s then 1 else 0) + occurrences needle r)%nat
  end.

(** [s.includes(needle)] for a non-empty [needle]. *)
Definition includes (needle s : jstring) : bool :=
  negb (occurrences needle s =? 0)%nat.

End JS.
Import JS.

(** ** The [dedent] template tag

    [App.tsx] imports the tag from the npm package [dedent]; the definitions
    below follow that package's default export applied to a template literal
    (so [escapeSpecialCharacters] is on): the raw template strings are
    unescaped and interleaved with the values, the smallest indentation of an
    indented non-blank line is removed from every line that starts with a
    space or a tab, the result is trimmed, and a backslash followed by [n] is
    turned into a line feed.

    The package is not part of the repository, which pins no release of it.
    Releases from 1.7 on rewrite further escapes in the finished text, the
    interpolated values included (a backslash followed by [t], or by [x] and
    two hexadecimal digits, and the like); this step is not modelled.  The
    templates of [App.tsx] hold no such escape, so the model and these
    releases agree whenever the name and the endpoints hold no backslash,
    and the statements that count what a value may bring into an artifact
    are made for such values. *)

Module Dedent.

(** [next.replace(/\\\n[ \t]*/g, "")]: a backslash at the end of a line
    joins the line with the next one, dropping its indentation. *)
Fixpoint join_escaped_newlines (skipping : bool) (s : jstring) : jstring :=
  match s with
  | [] => []
  | c :: r =>
      if skipping && ((c =? SP) || (c =? TAB)) then join_escaped_newlines true r
      else match r with
           | d :: r' =>
               if (c =? BS) && (d =? NL) then join_escaped_newlines true r'
               else c :: join_escaped_newlines false r
           | [] => [c]
           end
  end.

(** The four replacements applied to every raw template string. *)
Definition unescape_raw (raw : jstring) : jstring :=
  replace2 BS 123 123
    (replace2 BS 36 36
       (replace2 BS 96 96 (join_escaped_newlines false raw))).

(** The interpolation loop: [result += next; if (i < values.length) result
    += values[i]]. *)
Fixpoint interpolate (raw values : list jstring) : jstring :=
  match raw with
  | [] => []
  | r :: raw' =>
      unescape_raw r ++
      match values with
      | [] => interpolate raw' []
      | v :: values' => v ++ interpolate raw' values'
      end
  end.

(** [l.match(/^(\s+)\S+/)] and the length of its first group. *)
Definition indent_of (l : jstring) : option nat :=
  match takeWhile is_ws l, dropWhile is_ws l with
  | (_ :: _) as w, _ :: _ => Some (length w)
  | _, _ => None
  end.

(** The loop that computes [mindent]; [None] is JavaScript's [null]. *)
Fixpoint mindent_from (acc : option nat) (lines : list jstring) : option nat :=
  match lines with
  | [] => acc
  | l :: rest =>
      match indent_of l with
      | Some indent =>
          match acc with
          | None | Some O => mindent_from (Some indent) rest
          | Some m => mindent_from (Some (Nat.min m indent)) rest
          end
      | None => mindent_from acc rest
      end
  end.

Definition mindent (lines : list jstring) : option nat := mindent_from None lines.

Definition strip_line (m : nat) (l : jstring) : jstring :=
  match l with
  | c :: _ => if (c =? SP) || (c =? TAB) then slice m l else l
  | [] => l
  end.

Definition strip_indentation (result : jstring) : jstring :=
  let lines := split NL result in
  match mindent lines with
  | Some m => join [NL] (map (strip_line m) lines)
  | None => result
  end.

(** Everything after the interpolation. *)
Definition finish (result : jstring) : jstring :=
  replace2 BS 110 NL (trim (strip_indentation result)).

Definition dedent (raw values : list jstring) : jstring :=
  finish (interpolate raw values).

End Dedent.
Import Dedent.

(** ** The renderers of [App.tsx] *)

Inductive InstanceSelectionMode := DEFAULT_FIRST | DEFAULT_RANDOM.

(** The string value of an enum member, as a template interpolation sees it. *)
Definition mode_value (m : InstanceSelectionMode) : jstring :=
  match m with
  | DEFAULT_FIRST => js "default_first"
  | DEFAULT_RANDOM => js "default_random"
  end.

Inductive ConfigType := DOCKER_COMMAND | DOCKERFILE | DOCKER_COMPOSE | KUBERNETES.

(** The argument object shared by the four renderers. *)
Record Config := {
  REACT_APP_NAME : jstring;
  REACT_APP_DEFAULT_INSTANCE : jstring;
  REACT_APP_LOCK_TO_DEFAULT_INSTANCE : bool;
  REACT_APP_INSTANCE_SELECTION_MODE : InstanceSelectionMode;
  hasMultipleInstances : bool
}.

(** Source text of a template, line by line. *)
Definition text (lines : list jstring) : jstring := join [NL] lines.

(** [REACT_APP_DEFAULT_INSTANCE.split(",").map(i => i.trim())]: the
    endpoints, empty ones included. *)
Definition endpoints (raw : jstring) : list jstring :=
  map trim (split COMMA raw).

(** [REACT_APP_DEFAULT_INSTANCE.split(",").map(i => i.trim()).join(",")] *)
Definition instances_of (raw : jstring) : jstring :=
  join [COMMA] (endpoints raw).

(** [REACT_APP_LOCK_TO_DEFAULT_INSTANCE ? 1 : 0], a number. *)
Definition lockVal (lock : bool) : N := if lock then 1 else 0.

(** The name of the conditional entry. *)
Definition SELECTION_MODE_KEY : jstring := js "REACT_APP_INSTANCE_SELECTION_MODE".

Module DockerCommand.

Definition raw0 : jstring := text
  [ [];
    js "    # pull the latest Blorp image";
    js "    docker pull christianjuth/blorp:latest";
    [];
    js "    # run it on port 8080 (host " ++ [8594] ++
      js " container), passing any runtime env" ++ [8209] ++ js "vars you need";
    js "    docker run -d \ ";
    js "      --name blorp \ ";
    js "      -p 8080:80 \ ";
    js "      -e REACT_APP_NAME=" ++ [DQ] ].

Definition raw1 : jstring := text
  [ [DQ] ++ js " \ ";
    js "      -e REACT_APP_DEFAULT_INSTANCE=" ++ [DQ] ].

Definition raw2 : jstring := text
  [ [DQ] ++ js " \ ";
    js "      -e REACT_APP_LOCK_TO_DEFAULT_INSTANCE=" ++ [DQ] ].

Definition raw3 : jstring := text
  [ [DQ] ++ js " \ ";
    js "      " ].

Definition raw4 : jstring := text
  [ js "christianjuth/blorp:latest";
    js "  " ].

(** The nested, untagged template: its escapes are cooked, so [\ ] is a
    space and [\n] a line feed. *)
Definition mode_flag (c : Config) : jstring :=
  if hasMultipleInstances c
  then js "-e REACT_APP_INSTANCE_SELECTION_MODE=" ++ [DQ] ++
       mode_value (REACT_APP_INSTANCE_SELECTION_MODE c) ++ [DQ] ++
       js " " ++ [SP] ++ [NL] ++ js "      "
  else [].

End DockerCommand.

Definition getDockerCommand (c : Config) : jstring :=
  let instances := instances_of (REACT_APP_DEFAULT_INSTANCE c) in
  dedent
    [ DockerCommand.raw0; DockerCommand.raw1; DockerCommand.raw2;
      DockerCommand.raw3; DockerCommand.raw4 ]
    [ trim (REACT_APP_NAME c);
      instances;
      Number_toString (lockVal (REACT_APP_LOCK_TO_DEFAULT_INSTANCE c));
      DockerCommand.mode_flag c ].

Module Dockerfile.

Definition raw0 : jstring := text
  [ [];
    js "    FROM christianjuth/blorp:latest";
    [];
    js "    ENV REACT_APP_NAME=" ++ [DQ] ].

Definition raw1 : jstring := text
  [ [DQ];
    js "    ENV REACT_APP_DEFAULT_INSTANCE=" ++ [DQ] ].

Definition raw2 : jstring := text
  [ [DQ];
    js "    ENV REACT_APP_LOCK_TO_DEFAULT_INSTANCE=" ++ [DQ] ].

Definition raw3 : jstring := text
  [ [DQ];
    js "    " ].

Definition raw4 : jstring := text
  [ [];
    [];
    js "    EXPOSE 80";
    js "    # Build:  docker build -t blorp-custom .";
    js "    # Run:    docker run -d --name blorp -p 8080:80 blorp-custom";
    js "  " ].

Definition mode_env (c : Config) : jstring :=
  if hasMultipleInstances c
  then js "ENV REACT_APP_INSTANCE_SELECTION_MODE=" ++ [DQ] ++
       mode_value (REACT_APP_INSTANCE_SELECTION_MODE c) ++ [DQ]
  else [].

End Dockerfile.

Definition getDockerfile (c : Config) : jstring :=
  let instances := instances_of (REACT_APP_DEFAULT_INSTANCE c) in
  let lockVal := lockVal (REACT_APP_LOCK_TO_DEFAULT_INSTANCE c) in
  trim (dedent
    [ Dockerfile.raw0; Dockerfile.raw1; Dockerfile.raw2; Dockerfile.raw3;
      Dockerfile.raw4 ]
    [ trim (REACT_APP_NAME c);
      instances;
      Number_toString lockVal;
      Dockerfile.mode_env c ]).

Module Compose.

Definition raw0 : jstring := text
  [ [];
    js "    version: " ++ [DQ] ++ js "3.8" ++ [DQ];
    [];
    js "    services:";
    js "      blorp:";
    js "        image: christianjuth/blorp:latest";
    js "        container_name: blorp";
    js "        ports:";
    js "          - " ++ [DQ] ++ js "8080:80" ++ [DQ];
    js "        environment:";
    js "          REACT_APP_NAME: " ++ [DQ] ].

Definition raw1 : jstring := text
  [ [DQ];
    js "          REACT_APP_DEFAULT_INSTANCE: " ++ [DQ] ].

Definition raw2 : jstring := text
  [ [DQ];
    js "          REACT_APP_LOCK_TO_DEFAULT_INSTANCE: " ++ [DQ] ].

Definition raw3 : jstring := [DQ].

Definition raw4 : jstring := text
  [ [];
    js "  " ].

Definition maybeMode (c : Config) : jstring :=
  if hasMultipleInstances c
  then [NL] ++ js "      REACT_APP_INSTANCE_SELECTION_MODE: " ++ [DQ] ++
       mode_value (REACT_APP_INSTANCE_SELECTION_MODE c) ++ [DQ]
  else [].

End Compose.

Definition getCompose (c : Config) : jstring :=
  let instances := instances_of (REACT_APP_DEFAULT_INSTANCE c) in
  let lockVal := lockVal (REACT_APP_LOCK_TO_DEFAULT_INSTANCE c) in
  let maybeMode := Compose.maybeMode c in
  trim (dedent
    [ Compose.raw0; Compose.raw1; Compose.raw2; Compose.raw3; Compose.raw4 ]
    [ trim (REACT_APP_NAME c);
      instances;
      Number_toString lockVal;
      maybeMode ]).

Module Kube.

(** The nested template is itself tagged with [dedent]. *)
Definition mode_raw0 : jstring := text
  [ [];
    js "        - name: REACT_APP_INSTANCE_SELECTION_MODE";
    js "          value: " ++ [DQ] ].

Definition mode_raw1 : jstring := [DQ].

Definition maybeMode (c : Config) : jstring :=
  if hasMultipleInstances c
  then dedent [ mode_raw0; mode_raw1 ]
              [ mode_value (REACT_APP_INSTANCE_SELECTION_MODE c) ]
  else [].

Definition raw0 : jstring := text
  [ [];
    js "    apiVersion: apps/v1";
    js "    kind: Deployment";
    js "    metadata:";
    js "      name: blorp";
    js "      labels:";
    js "        app: blorp";
    js "    spec:";
    js "      replicas: 1";
    js "      selector:";
    js "        matchLabels:";
    js "          app: blorp";
    js "      template:";
    js "        metadata:";
    js "          labels:";
    js "            app: blorp";
    js "        spec:";
    js "          containers:";
    js "            - name: blorp";
    js "              image: christianjuth/blorp:latest";
    js "              ports:";
    js "                - containerPort: 80";
    js "              env:";
    js "                - name: REACT_APP_NAME";
    js "                  value: " ++ [DQ] ].

Definition raw1 : jstring := text
  [ [DQ];
    js "                - name: REACT_APP_DEFAULT_INSTANCE";
    js "                  value: " ++ [DQ] ].

Definition raw2 : jstring := text
  [ [DQ];
    js "                - name: REACT_APP_LOCK_TO_DEFAULT_INSTANCE";
    js "                  value: " ++ [DQ] ].

Definition raw3 : jstring := text
  [ [DQ];
    js "                " ].

Definition raw4 : jstring := text
  [ [];
    js "    ---";
    js "    apiVersion: v1";
    js "    kind: Service";
    js "    metadata:";
    js "      name: blorp";
    js "      labels:";
    js "        app: blorp";
    js "    spec:";
    js "      selector:";
    js "        app: blorp";
    js "      type: NodePort";
    js "      ports:";
    js "        - name: http";
    js "          port: 80";
    js "          targetPort: 80";
    js "          nodePort: 30080";
    js "  " ].

End Kube.

Definition getKube (c : Config) : jstring :=
  let instances := instances_of (REACT_APP_DEFAULT_INSTANCE c) in
  let lockVal := lockVal (REACT_APP_LOCK_TO_DEFAULT_INSTANCE c) in
  let maybeMode := Kube.maybeMode c in
  trim (dedent
    [ Kube.raw0; Kube.raw1; Kube.raw2; Kube.raw3; Kube.raw4 ]
    [ trim (REACT_APP_NAME c);
      instances;
      Number_toString lockVal;
      maybeMode ]).

(** ** The component [App] *)

(** The fields of the store that the engine reads. *)
Record Store := {
  configType : ConfigType;
  lockToDefaultInstance : bool;
  name : jstring;
  defaultInstance : jstring;
  instanceSelectionMode : InstanceSelectionMode
}.

(** The initial state passed to [create]. *)
Definition initialStore : Store := {|
  name := js "Blorp";
  defaultInstance := js "https://lemmy.world";
  lockToDefaultInstance := false;
  instanceSelectionMode := DEFAULT_FIRST;
  configType := DOCKER_COMMAND
|}.

Module App.

(** [defaultInstance.split(",").length > 1] *)
Definition hasMultipleInstances (s : Store) : bool :=
  (1 <? length (split COMMA (defaultInstance s)))%nat.

(** The object literal [config], field by field in the order of [Config]. *)
Definition config (s : Store) : Config :=
  Build_Config
    (name s)
    (defaultInstance s)
    (lockToDefaultInstance s)
    (instanceSelectionMode s)
    (hasMultipleInstances s).

(** The [switch] over [configType]. *)
Definition render (t : ConfigType) (c : Config) : jstring :=
  match t with
  | DOCKER_COMMAND => getDockerCommand c
  | DOCKERFILE => getDockerfile c
  | DOCKER_COMPOSE => getCompose c
  | KUBERNETES => getKube c
  end.

Definition code (s : Store) : jstring := render (configType s) (config s).

End App.

(** ** Tokens and their occurrences *)

Module Token.

(** The token is not empty and its first character is not [c]. *)
Definition head_differs (c : code_unit) (tok : jstring) : bool :=
  match tok with
  | [] => false
  | h :: _ => negb (h =? c)
  end.

(** The token is not empty and its last character is not [c]. *)
Definition last_differs (c : code_unit) (tok : jstring) : bool :=
  head_differs c (rev tok).

(** [c] is not a character of the token. *)
Definition absent (c : code_unit) (tok : jstring) : bool :=
  forallb (fun x => negb (x =? c)) tok.

(** Tokens that survive [dedent]: they neither start nor end with white
    space, do not start with [n] and hold no backslash. *)
Definition head_ok (tok : jstring) : bool :=
  match tok with
  | [] => false
  | h :: _ => negb (is_ws h) && negb (h =? 110)
  end.

Definition last_ok (tok : jstring) : bool :=
  match rev tok with
  | [] => false
  | l :: _ => negb (is_ws l)
  end.

Definition solid (tok : jstring) : bool :=
  head_ok tok && last_ok tok && absent BS tok.

(** A piece of one line that does not start or end with white space. *)
Definition line_token (t : jstring) : bool := solid t && absent NL t.

(** [first], a line feed, [k] spaces, [second]. *)
Definition two_lines (first : jstring) (k : nat) (second : jstring) : jstring :=
  first ++ NL :: repeat SP k ++ second.

(** Sum of a list of counts. *)
Fixpoint total (l : list nat) : nat :=
  match l with
  | [] => 0%nat
  | n :: r => (n + total r)%nat
  end.

(** Equality of two texts. *)
Definition same (a b : jstring) : bool :=
  if list_eq_dec N.eq_dec a b then true else false.

End Token.
Import Token.

(** ** The shape of the renderers' templates *)

Module Template.

(** [u] without its last character, without its first and last, without
    its first: the text around the double quotes that enclose a value. *)
Definition opens (u : jstring) : jstring := removelast u.
Definition between (u : jstring) : jstring := removelast (tl u).
Definition closes (u : jstring) : jstring := tl u.

(** The first raw string ends with a double quote, the second starts and
    ends with one, the third starts with one. *)
Definition quoted_shape (u0 u1 u2 : jstring) : bool :=
  same u0 (opens u0 ++ [DQ]) && same u1 (DQ :: between u1 ++ [DQ]) &&
  same u2 (DQ :: closes u2).

(** The tail of the template, from the lock value on. *)
Definition tail_text (r2 r3 r4 l m : jstring) : jstring :=
  closes (unescape_raw r2) ++ l ++ unescape_raw r3 ++ m ++ unescape_raw r4.

End Template.
Import Template.

(** ** The entries of the artifacts *)

Module Entries.

Definition quoted (v : jstring) : jstring := DQ :: v ++ [DQ].


(** The two spellings of the lock flag. *)
Definition lock_literal (lock : bool) : jstring :=
  if lock then js "1" else js "0".


Definition command_mode_entry (m : InstanceSelectionMode) : jstring :=
  js "-e REACT_APP_INSTANCE_SELECTION_MODE=" ++ quoted (mode_value m).
Definition dockerfile_mode_entry (m : InstanceSelectionMode) : jstring :=
  js "ENV REACT_APP_INSTANCE_SELECTION_MODE=" ++ quoted (mode_value m).
Definition compose_mode_entry (m : InstanceSelectionMode) : jstring :=
  js "REACT_APP_INSTANCE_SELECTION_MODE: " ++ quoted (mode_value m).
Definition kube_mode_entry (k : nat) (m : InstanceSelectionMode) : jstring :=
  two_lines (js "- name: REACT_APP_INSTANCE_SELECTION_MODE") k
            (js "value: " ++ quoted (mode_value m)).

End Entries.
Import Entries.

(** Closed goals are settled by evaluation. *)
Ltac closed := vm_compute; reflexivity.

(** ** Exceptions *)

(** What a JavaScript exception of the engine can be: the [TypeError] of
    the [URL] constructor or the [Error] thrown by the validator. *)
Inductive exn :=
| TypeError (message : string)
| Error (message : string).

(** The outcome of evaluating a function body: a returned value or a thrown
    exception. *)
Inductive completion (A : Type) :=
| Return (a : A)
| Throw (e : exn).
Arguments Return {A} a.
Arguments Throw {A} e.

(** ** The platform's [URL] constructor

    [new URL(input)] is provided by the browser, not by the repository.  The
    validator only needs to know whether the constructor throws and what
    [pathname] is, so the statements about the validator below are made for
    an arbitrary constructor.  [WHATWG.URL_new] is a reference model of the
    constructor after the URL Standard's basic URL parser (no base URL),
    used to run the validator on concrete inputs.  Its host parser covers
    ASCII domains and IPv4 addresses; hosts that need IDNA processing
    (non-ASCII or [xn--] labels) and IPv6 literals are outside the model,
    which reports them as failures and is never evaluated on them below. *)

Record URL := {
  scheme : jstring;
  host : option jstring;
  port : option N;
  opaque_path : bool;
  path : list jstring;
  (* the [pathname] getter: the serialised path *)
  pathname : jstring
}.

Module WHATWG.

(** *** Code points, UTF-8 and percent-encoding *)

Definition is_lead_surrogate (c : N) : bool := (55296 <=? c) && (c <=? 56319).
Definition is_trail_surrogate (c : N) : bool := (56320 <=? c) && (c <=? 57343).

(** Conversion of a JavaScript string to a [USVString]: surrogate pairs
    become one scalar value, lone surrogates become U+FFFD. *)
Fixpoint scalar_values (s : jstring) : list N :=
  match s with
  | [] => []
  | c :: r =>
      if is_lead_surrogate c then
        match r with
        | d :: r' =>
            if is_trail_surrogate d
            then (65536 + (c - 55296) * 1024 + (d - 56320)) :: scalar_values r'
            else 65533 :: scalar_values r
        | [] => [65533]
        end
      else if is_trail_surrogate c then 65533 :: scalar_values r
      else c :: scalar_values r
  end.

Definition utf8_encode (cp : N) : list N :=
  if cp <? 128 then [cp]
  else if cp <? 2048 then [192 + cp / 64; 128 + cp mod 64]
  else if cp <? 65536 then [224 + cp / 4096; 128 + (cp / 64) mod 64; 128 + cp mod 64]
  else [240 + cp / 262144; 128 + (cp / 4096) mod 64; 128 + (cp / 64) mod 64;
        128 + cp mod 64].

Definition hex_digit (n : N) : code_unit :=
  if n <? 10 then 48 + n else 55 + n.

(** [%XX] with upper-case hexadecimal digits. *)
Definition percent_encode_byte (b : N) : jstring :=
  [37; hex_digit (b / 16); hex_digit (b mod 16)].

Definition utf8_percent_encode (in_set : N -> bool) (cp : N) : jstring :=
  if in_set cp then flat_map percent_encode_byte (utf8_encode cp) else [cp].

Definition in_list (l : list N) (c : N) : bool := existsb (N.eqb c) l.

Definition C0_control_set (c : N) : bool := (c <? 32) || (126 <? c).
Definition fragment_set (c : N) : bool :=
  C0_control_set c || in_list [32; 34; 60; 62; 96] c.
Definition query_set (c : N) : bool :=
  C0_control_set c || in_list [32; 34; 35; 60; 62] c.
Definition path_set (c : N) : bool :=
  query_set c || in_list [63; 94; 96; 123; 125] c.

(** *** ASCII classes *)

Definition is_alpha (c : N) : bool :=
  ((65 <=? c) && (c <=? 90)) || ((97 <=? c) && (c <=? 122)).
Definition is_digit (c : N) : bool := (48 <=? c) && (c <=? 57).
Definition is_hex_digit (c : N) : bool :=
  is_digit c || ((65 <=? c) && (c <=? 70)) || ((97 <=? c) && (c <=? 102)).
Definition to_lower (c : N) : N :=
  if (65 <=? c) && (c <=? 90) then c + 32 else c.
Definition lower (s : jstring) : jstring := map to_lower s.

Definition is_C0_or_space (c : N) : bool := c <=? 32.
Definition is_tab_or_newline (c : N) : bool := in_list [9; 10; 13] c.

(** Leading and trailing C0 controls and spaces are removed, then every
    tab and newline. *)
Definition preprocess (input : list N) : list N :=
  filter (fun c => negb (is_tab_or_newline c))
    (rev (dropWhile is_C0_or_space (rev (dropWhile is_C0_or_space input)))).

(** *** Scheme *)

Definition is_scheme_char (c : N) : bool :=
  is_alpha c || is_digit c || in_list [43; 45; 46] c.

(** Scheme start state and scheme state: the lower-cased scheme and what
    follows the colon.  Without a base URL anything else is a failure. *)
Definition parse_scheme (s : list N) : option (jstring * list N) :=
  match s with
  | c :: _ =>
      if is_alpha c then
        match dropWhile is_scheme_char s with
        | 58 :: rest => Some (lower (takeWhile is_scheme_char s), rest)
        | _ => None
        end
      else None
  | [] => None
  end.

Definition default_port (scheme : jstring) : option N :=
  if same scheme (js "ftp") then Some 21
  else if same scheme (js "http") then Some 80
  else if same scheme (js "https") then Some 443
  else if same scheme (js "ws") then Some 80
  else if same scheme (js "wss") then Some 443
  else None.

Definition is_special (scheme : jstring) : bool :=
  match default_port scheme with
  | Some _ => true
  | None => same scheme (js "file")
  end.

(** *** Hosts *)

Definition forbidden_host_code_point (c : N) : bool :=
  in_list [0; 9; 10; 13; 32; 35; 47; 58; 60; 62; 63; 64; 91; 92; 93; 94; 124] c.

Definition forbidden_domain_code_point (c : N) : bool :=
  forbidden_host_code_point c || (c <=? 31) || (c =? 37) || (c =? 127).

Definition hex_value (c : N) : N :=
  if is_digit c then c - 48
  else if (97 <=? c) then c - 87 else c - 55.

(** Percent-decoding, to bytes; [skip] counts the hexadecimal digits of an
    escape still to be passed over. *)
Fixpoint percent_decode_from (skip : nat) (s : list N) : list N :=
  match s with
  | [] => []
  | c :: r =>
      match skip with
      | S k => percent_decode_from k r
      | O =>
          match r with
          | h :: l :: _ =>
              if (c =? 37) && is_hex_digit h && is_hex_digit l
              then (16 * hex_value h + hex_value l) :: percent_decode_from 2 r
              else c :: percent_decode_from 0 r
          | _ => c :: percent_decode_from 0 r
          end
      end
  end.

Definition percent_decode (s : list N) : list N := percent_decode_from 0 s.

(** The value of a string of digits in a radix, most significant first. *)
Definition digits_value (radix : N) (s : list N) : N :=
  fold_left (fun acc c => acc * radix + hex_value c) s 0.

(** The IPv4 number parser: hexadecimal after [0x], octal after [0],
    decimal otherwise. *)
Definition parse_ipv4_number (s : list N) : option N :=
  match s with
  | [] => None
  | 48 :: x :: r =>
      if (x =? 120) || (x =? 88) then
        if forallb is_hex_digit r then Some (digits_value 16 r) else None
      else if forallb (fun c => (48 <=? c) && (c <=? 55)) (x :: r)
           then Some (digits_value 8 (x :: r)) else None
  | _ => if forallb is_digit s then Some (digits_value 10 s) else None
  end.

(** The parts of a host between dots, a single trailing empty part
    removed. *)
Definition ipv4_parts (s : list N) : list (list N) :=
  let parts := split 46 s in
  match rev parts with
  | [] :: (_ :: _) as before => rev before
  | _ => parts
  end.

Definition ends_in_a_number (s : list N) : bool :=
  let parts := split 46 s in
  let parts :=
    match rev parts with
    | [] :: before => rev before
    | _ => parts
    end in
  match rev parts with
  | [] => false
  | last :: _ =>
      match last with
      | [] =>
          match parse_ipv4_number last with Some _ => true | None => false end
      | _ :: _ =>
          if forallb is_digit last then true
          else match parse_ipv4_number last with Some _ => true | None => false end
      end
  end.

Fixpoint all_some (l : list (option N)) : option (list N) :=
  match l with
  | [] => Some []
  | None :: _ => None
  | Some n :: r =>
      match all_some r with Some ns => Some (n :: ns) | None => None end
  end.

(** The IPv4 parser: the address, or failure. *)
Definition parse_ipv4 (s : list N) : option N :=
  let parts := ipv4_parts s in
  if (4 <? length parts)%nat then None
  else
    match all_some (map parse_ipv4_number parts) with
    | None => None
    | Some numbers =>
        match rev numbers with
        | [] => None
        | last :: before =>
            if existsb (fun n => 255 <? n) before then None
            else if 256 ^ (5 - N.of_nat (length numbers)) <=? last then None
            else Some (fold_left (fun acc n => acc * 256 + n) (rev before) 0
                       * 256 ^ (4 - N.of_nat (length before)) + last)
        end
    end.

Definition Number_digits (n : N) : jstring :=
  js (NilEmpty.string_of_uint (N.to_uint n)).

(** The IPv4 serialiser. *)
Definition serialize_ipv4 (a : N) : jstring :=
  Number_digits (a / 16777216) ++ [46] ++
  Number_digits ((a / 65536) mod 256) ++ [46] ++
  Number_digits ((a / 256) mod 256) ++ [46] ++
  Number_digits (a mod 256).

Definition has_xn_label (s : list N) : bool :=
  existsb (starts_with (js "xn--")) (split 46 s).

(** The host parser for a special URL, on the modelled fragment. *)
Definition parse_domain (input : list N) : option jstring :=
  match input with
  | 91 :: _ => None
  | _ =>
      let domain := percent_decode input in
      if existsb (fun b => 127 <? b) domain then None
      else
        let asciiDomain := lower domain in
        if has_xn_label asciiDomain then None
        else
          match asciiDomain with
          | [] => None
          | _ :: _ =>
              if existsb forbidden_domain_code_point asciiDomain then None
              else if ends_in_a_number asciiDomain then
                match parse_ipv4 asciiDomain with
                | Some a => Some (serialize_ipv4 a)
                | None => None
                end
              else Some asciiDomain
          end
  end.

(** The opaque-host parser, for a URL that is not special. *)
Definition parse_opaque_host (input : list N) : option jstring :=
  match input with
  | 91 :: _ => None
  | _ =>
      if existsb forbidden_host_code_point input then None
      else Some (flat_map (utf8_percent_encode C0_control_set) input)
  end.

Definition parse_host (special : bool) (input : list N) : option jstring :=
  if special then parse_domain input else parse_opaque_host input.

(** *** Authority *)

(** The text after the last [@], and whether there was one. *)
Fixpoint after_last_at (seen : bool) (buffer s : list N) : bool * list N :=
  match s with
  | [] => (seen, buffer)
  | c :: r =>
      if c =? 64 then after_last_at true [] r
      else after_last_at seen (buffer ++ [c]) r
  end.

(** Host state: the host up to the first colon outside brackets, and the
    port text if there is a colon. *)
Fixpoint split_host_port (inside : bool) (buffer s : list N)
  : list N * option (list N) :=
  match s with
  | [] => (buffer, None)
  | c :: r =>
      if (c =? 58) && negb inside then (buffer, Some r)
      else
        let inside := if c =? 91 then true else if c =? 93 then false else inside in
        split_host_port inside (buffer ++ [c]) r
  end.

(** Port state. *)
Definition parse_port (scheme : jstring) (s : list N) : option (option N) :=
  if forallb is_digit s then
    match s with
    | [] => Some None
    | _ :: _ =>
        let p := digits_value 10 s in
        if 65535 <? p then None
        else match default_port scheme with
             | Some d => if p =? d then Some None else Some (Some p)
             | None => Some (Some p)
             end
    end
  else None.

Definition ends_authority (special : bool) (c : N) : bool :=
  in_list [47; 63; 35] c || (special && (c =? 92)).

(** Authority state, host state and port state. *)
Definition parse_authority (scheme : jstring) (special : bool) (auth : list N)
  : option (jstring * option N) :=
  let '(atSignSeen, buffer) := after_last_at false [] auth in
  match atSignSeen, buffer with
  | true, [] => None
  | _, _ =>
      match split_host_port false [] buffer with
      | ([], Some _) => None
      | (h, Some p) =>
          match parse_host special h, parse_port scheme p with
          | Some host, Some port => Some (host, port)
          | _, _ => None
          end
      | (h, None) =>
          match special, h with
          | true, [] => None
          | _, _ =>
              match parse_host special h with
              | Some host => Some (host, None)
              | None => None
              end
          end
      end
  end.

(** *** Paths *)

Definition is_single_dot (buffer : jstring) : bool :=
  same buffer (js ".") || same (lower buffer) (js "%2e").

Definition is_double_dot (buffer : jstring) : bool :=
  let b := lower buffer in
  same b (js "..") || same b (js ".%2e") || same b (js "%2e.") ||
  same b (js "%2e%2e").

Definition is_windows_drive_letter (s : jstring) : bool :=
  match s with
  | [a; b] => is_alpha a && ((b =? 58) || (b =? 124))
  | _ => false
  end.

Definition is_normalized_drive_letter (s : jstring) : bool :=
  match s with
  | [a; b] => is_alpha a && (b =? 58)
  | _ => false
  end.

Definition shorten (file : bool) (path : list jstring) : list jstring :=
  match path with
  | [p] => if file && is_normalized_drive_letter p then path else []
  | _ => removelast path
  end.

(** What the path state does when a segment ends; [slash] tells whether it
    ended at a separator. *)
Definition end_segment (file slash : bool) (path : list jstring)
  (buffer : jstring) : list jstring :=
  if is_double_dot buffer then
    let path := shorten file path in
    if slash then path else path ++ [[]]
  else if is_single_dot buffer then
    if slash then path else path ++ [[]]
  else
    let buffer :=
      match path, buffer with
      | [], [a; _] =>
          if file && is_windows_drive_letter buffer then [a; 58] else buffer
      | _, _ => buffer
      end in
    path ++ [buffer].

(** Path state, up to the query or the fragment. *)
Fixpoint path_state (special file : bool) (path : list jstring)
  (buffer : jstring) (s : list N) : list jstring :=
  match s with
  | [] => end_segment file false path buffer
  | c :: r =>
      if (c =? 63) || (c =? 35) then end_segment file false path buffer
      else if (c =? 47) || (special && (c =? 92))
      then path_state special file (end_segment file true path buffer) [] r
      else path_state special file path
             (buffer ++ utf8_percent_encode path_set c) r
  end.

(** Path start state. *)
Definition path_start (special file : bool) (s : list N) : list jstring :=
  match s with
  | [] => if special then path_state special file [] [] [] else []
  | c :: r =>
      if special then
        if (c =? 47) || (c =? 92) then path_state special file [] [] r
        else path_state special file [] [] s
      else if (c =? 63) || (c =? 35) then []
      else if c =? 47 then path_state special file [] [] r
      else path_state special file [] [] s
  end.

(** Opaque path state. *)
Fixpoint opaque_path_state (s : list N) : jstring :=
  match s with
  | [] => []
  | c :: r =>
      if (c =? 63) || (c =? 35) then []
      else if c =? 32 then
        match r with
        | d :: _ => if (d =? 63) || (d =? 35) then js "%20" else [32]
        | [] => [32]
        end ++ opaque_path_state r
      else utf8_percent_encode C0_control_set c ++ opaque_path_state r
  end.

(** The URL path serialiser for a list of segments. *)
Definition serialize_path (path : list jstring) : jstring :=
  flat_map (fun segment => 47 :: segment) path.

Definition is_slash (c : N) : bool := (c =? 47) || (c =? 92).

Definition mkURL (scheme : jstring) (host : option jstring) (port : option N)
  (path : list jstring) : URL :=
  {| scheme := scheme; host := host; port := port; opaque_path := false;
     path := path; pathname := serialize_path path |}.

(** A special URL other than [file:]: the slashes after the colon are
    skipped, then come the authority and the path. *)
Definition parse_special (scheme : jstring) (rest : list N) : option URL :=
  let rest := dropWhile is_slash rest in
  let auth := takeWhile (fun c => negb (ends_authority true c)) rest in
  let rest := dropWhile (fun c => negb (ends_authority true c)) rest in
  match parse_authority scheme true auth with
  | Some (host, port) =>
      Some (mkURL scheme (Some host) port (path_start true false rest))
  | None => None
  end.

(** File state, file slash state and file host state. *)
Definition parse_file (rest : list N) : option URL :=
  let scheme := js "file" in
  match rest with
  | c :: d :: r =>
      if is_slash c && is_slash d then
        let buffer := takeWhile (fun c => negb (ends_authority true c)) r in
        let rest := dropWhile (fun c => negb (ends_authority true c)) r in
        if is_windows_drive_letter buffer
        then Some (mkURL scheme (Some []) None (path_state true true [] [] r))
        else
          match buffer with
          | [] => Some (mkURL scheme (Some []) None (path_start true true rest))
          | _ :: _ =>
              match parse_host true buffer with
              | Some h =>
                  let h := if same h (js "localhost") then [] else h in
                  Some (mkURL scheme (Some h) None (path_start true true rest))
              | None => None
              end
          end
      else if is_slash c
      then Some (mkURL scheme (Some []) None (path_state true true [] [] (d :: r)))
      else Some (mkURL scheme (Some []) None (path_state true true [] [] rest))
  | [c] =>
      if is_slash c
      then Some (mkURL scheme (Some []) None (path_state true true [] [] []))
      else Some (mkURL scheme (Some []) None (path_state true true [] [] rest))
  | [] => Some (mkURL scheme (Some []) None (path_state true true [] [] []))
  end.

(** A URL that is not special: an authority after two slashes, a path
    after one, an opaque path otherwise. *)
Definition parse_other (scheme : jstring) (rest : list N) : option URL :=
  match rest with
  | 47 :: 47 :: r =>
      let auth := takeWhile (fun c => negb (ends_authority false c)) r in
      let rest := dropWhile (fun c => negb (ends_authority false c)) r in
      match parse_authority scheme false auth with
      | Some (host, port) =>
          Some (mkURL scheme (Some host) port (path_start false false rest))
      | None => None
      end
  | 47 :: r => Some (mkURL scheme None None (path_state false false [] [] r))
  | _ =>
      let p := opaque_path_state rest in
      Some {| scheme := scheme; host := None; port := None; opaque_path := true;
              path := [p]; pathname := p |}
  end.

(** The basic URL parser without a base URL. *)
Definition basic_URL_parser (input : jstring) : option URL :=
  match parse_scheme (preprocess (scalar_values input)) with
  | None => None
  | Some (scheme, rest) =>
      if same scheme (js "file") then parse_file rest
      else if is_special scheme then parse_special scheme rest
      else parse_other scheme rest
  end.

(** [new URL(input)]: a failure of the parser is thrown as a [TypeError]. *)
Definition URL_new (input : jstring) : completion URL :=
  match basic_URL_parser input with
  | Some url => Return url
  | None => Throw (TypeError "Invalid URL")
  end.

End WHATWG.

(** ** The validator of [App.tsx] *)

(** [validateValue(value, validator)]: [try { return validator(value) }
    catch { return false }]. *)
Definition validateValue {T : Type} (value : T)
  (validator : T -> completion bool) : bool :=
  match validator value with
  | Return b => b
  | Throw _ => false
  end.

Section Validator.

(** The [URL] constructor in scope. *)
Variable URL_new : jstring -> completion URL.

(** The [for ... of] loop of the callback. *)
Fixpoint check_instances (instances : list jstring) : completion bool :=
  match instances with
  | [] => Return true
  | instance :: rest =>
      match URL_new instance with
      | Throw e => Throw e
      | Return url =>
          if (1 <? length (pathname url))%nat
          then Throw (Error "no pathname allowed")
          else check_instances rest
      end
  end.

(** The callback handed to [validateValue]. *)
Definition defaultInstance_validator (val : jstring) : completion bool :=
  let instances := split COMMA val in
  check_instances instances.

Definition defaultInstanceValid (defaultInstance : jstring) : bool :=
  validateValue defaultInstance defaultInstance_validator.

(** A segment that the loop accepts: the constructor returns a URL whose
    [pathname] is at most one character long. *)
Definition accepted_by_loop (instance : jstring) : bool :=
  match URL_new instance with
  | Return url => (length (pathname url) <=? 1)%nat
  | Throw _ => false
  end.

End Validator.

(** A [pathname] that is no more than the root: empty, or the separator
    alone. *)
Definition root_path (url : URL) : bool :=
  match pathname url with
  | [] => true
  | [c] => c =? 47
  | _ :: _ :: _ => false
  end.

(** A [pathname] that is empty or starts with the separator, as the
    serialiser gives for every path that is a list of segments. *)
Definition slash_path (url : URL) : bool :=
  match pathname url with
  | [] => true
  | c :: _ => c =? 47
  end.

(** ** The share link of [App.tsx]

    [URLSearchParams] is provided by the browser; the model follows the URL
    Standard: a list of name-value pairs, [set] replacing the first pair of
    that name or appending one, and [toString] running the
    [application/x-www-form-urlencoded] serialiser. *)

Module SearchParams.

Definition AMP : code_unit := 38.
Definition EQUALS : code_unit := 61.

(** The list held by a [URLSearchParams] object. *)
Definition params := list (jstring * jstring).

(** [new URLSearchParams()] *)
Definition empty : params := [].

Fixpoint remove_named (name : jstring) (l : params) : params :=
  match l with
  | [] => []
  | (n, v) :: r =>
      if same n name then remove_named name r else (n, v) :: remove_named name r
  end.

(** [params.set(name, value)] *)
Fixpoint set (l : params) (name value : jstring) : params :=
  match l with
  | [] => [(name, value)]
  | (n, v) :: r =>
      if same n name then (n, value) :: remove_named name r
      else (n, v) :: set r name value
  end.

(** The [application/x-www-form-urlencoded] percent-encode set: every code
    point but the ASCII alphanumerics and [*], [-], [.], [_]. *)
Definition urlencoded_set (b : N) : bool :=
  negb (WHATWG.is_alpha b || WHATWG.is_digit b || WHATWG.in_list [42; 45; 46; 95] b).

(** One byte of the UTF-8 encoding, with a space written as a plus. *)
Definition encode_byte (b : N) : jstring :=
  if b =? 32 then [43]
  else if urlencoded_set b then WHATWG.percent_encode_byte b
  else [b].

(** Percent-encode after encoding with UTF-8, spaces as plus. *)
Definition urlencode (s : jstring) : jstring :=
  flat_map (fun cp => flat_map encode_byte (WHATWG.utf8_encode cp))
           (WHATWG.scalar_values s).

Definition serialize_pair (p : jstring * jstring) : jstring :=
  urlencode (fst p) ++ [EQUALS] ++ urlencode (snd p).

(** [params.toString()] *)
Definition toString (l : params) : jstring :=
  join [AMP] (map serialize_pair l).


Definition field_value (field : jstring) : jstring :=
  tl (dropWhile (fun c => negb (c =? EQUALS)) field).

End SearchParams.

(** The immediately invoked function that computes [demoParams]. *)
Definition demoParams (s : Store) : jstring :=
  let params := SearchParams.empty in
  let params := SearchParams.set params (js "REACT_APP_NAME") (name s) in
  let params :=
    SearchParams.set params (js "REACT_APP_DEFAULT_INSTANCE") (defaultInstance s) in
  let params :=
    SearchParams.set params (js "REACT_APP_LOCK_TO_DEFAULT_INSTANCE")
      (if lockToDefaultInstance s then js "1" else js "0") in
  let params :=
    SearchParams.set params (js "REACT_APP_INSTANCE_SELECTION_MODE")
      (mode_value (instanceSelectionMode s)) in
  SearchParams.toString params.

(** The four pairs of the link, in the order of the four [set] calls. *)
Definition link_fields (s : Store) : list jstring :=
  [ js "REACT_APP_NAME" ++ SearchParams.EQUALS :: SearchParams.urlencode (name s);
    js "REACT_APP_DEFAULT_INSTANCE" ++ SearchParams.EQUALS :: SearchParams.urlencode (defaultInstance s);
    js "REACT_APP_LOCK_TO_DEFAULT_INSTANCE" ++ SearchParams.EQUALS ::
      (if lockToDefaultInstance s then js "1" else js "0");
    js "REACT_APP_INSTANCE_SELECTION_MODE" ++ SearchParams.EQUALS ::
      mode_value (instanceSelectionMode s) ].

(** The text copied by the "Copy demo link" button. *)
Definition demoLink (s : Store) : jstring :=
  js "https://blorpblorp.xyz?" ++ demoParams s.

(** ** Reading the artifacts and the specification's wording *)

Definition is_empty (s : jstring) : bool :=
  match s with
  | [] => true
  | _ :: _ => false
  end.

(** The endpoints that are not empty after trimming. *)
Definition configured_endpoints (raw : jstring) : list jstring :=
  filter (fun e => negb (is_empty e)) (endpoints raw).

(** What the specification calls a root-only absolute URL: the constructor
    accepts the segment and the path of the URL is no more than the root. *)
Definition root_only_URL (URL_new : jstring -> completion URL)
  (segment : jstring) : bool :=
  match URL_new segment with
  | Return url => root_path url
  | Throw _ => false
  end.

(** The validator as the specification words it: split on commas, trim,
    skip the empty segments, and require a root-only URL of every other
    one.  Only used to compare it with [defaultInstanceValid]. *)
Definition validate_as_specified (URL_new : jstring -> completion URL)
  (raw : jstring) : bool :=
  forallb (root_only_URL URL_new) (configured_endpoints raw).

(** A YAML document marker: a line that starts in the first column with
    three hyphens, followed by nothing or by white space. *)
Definition is_document_marker (line : jstring) : bool :=
  match line with
  | 45 :: 45 :: 45 :: rest =>
      match rest with
      | [] => true
      | c :: _ => (c =? SP) || (c =? TAB)
      end
  | _ => false
  end.

(** The lines of a manifest that separate two documents. *)
Definition document_markers (artifact : jstring) : list jstring :=
  filter is_document_marker (split NL artifact).

(** The store with all four settings and the format given. *)
Definition settings (displayName rawEndpoints : jstring) (lock : bool)
  (mode : InstanceSelectionMode) (format : ConfigType) : Store :=
  {| configType := format; lockToDefaultInstance := lock; name := displayName;
     defaultInstance := rawEndpoints; instanceSelectionMode := mode |}.

(** The scenarios used below. *)
Definition acme : Store :=
  settings (js "Acme") (js "https://a.com,https://b.com") true DEFAULT_RANDOM
           KUBERNETES.

Definition acme_single : Store :=
  settings (js "Acme") (js "https://a.com") true DEFAULT_RANDOM KUBERNETES.

Definition named_like_the_key : Store :=
  settings SELECTION_MODE_KEY (js "https://lemmy.world") false DEFAULT_FIRST
           DOCKER_COMMAND.

Definition trailing_comma : Store :=
  settings (js "Blorp") (js "https://a.com,") false DEFAULT_FIRST DOCKER_COMMAND.

Definition padded : Store :=
  settings (js " Blorp ") (js "https://a.com, https://b.com") false DEFAULT_FIRST
           DOCKER_COMMAND.

(** ** Further definitions of [App.tsx] and of the statements about it *)

(** [name.trim().length === 0], the condition under which the name box is
    drawn as missing. *)
Definition nameMissing (s : Store) : bool :=
  (length (trim (name s)) =? 0)%nat.

(** [!hasMultipleInstances], the condition under which the selection-mode
    box is dimmed. *)
Definition selectionModeDimmed (s : Store) : bool :=
  negb (App.hasMultipleInstances s).

(** The settings with the name trimmed and the endpoints trimmed and
    re-joined, as the renderers embed them. *)
Definition normalised (s : Store) : Store :=
  settings (trim (name s)) (instances_of (defaultInstance s))
           (lockToDefaultInstance s) (instanceSelectionMode s) (configType s).

(** The other keys of the environment. *)
Definition NAME_KEY : jstring := js "REACT_APP_NAME".
Definition INSTANCE_KEY : jstring := js "REACT_APP_DEFAULT_INSTANCE".

(** How often a character occurs in a text. *)
Definition count_char (c : code_unit) (s : jstring) : nat :=
  length (filter (fun x => x =? c) s).

(** The number of commas of a raw string. *)
Definition commas (raw : jstring) : nat := count_char COMMA raw.

(** A value that stays on its line and holds no backslash. *)
Definition plain_value (v : jstring) : bool := absent NL v && absent BS v.

(** Every code unit of a JavaScript string is below 65536. *)
Definition well_formed (s : jstring) : bool := forallb (fun c => c <? 65536) s.

(** The characters a query string can be made of without further escaping:
    ASCII letters and digits, [*], [-], [.], [_], the plus and the percent
    sign of the encoding, and the two separators. *)
Definition query_safe (c : code_unit) : bool :=
  WHATWG.is_alpha c || WHATWG.is_digit c ||
  WHATWG.in_list [42; 45; 46; 95; 43; 37; 38; 61] c.

(** The bytes of the UTF-8 encoding of a string. *)
Definition utf8_bytes (s : jstring) : list N :=
  flat_map WHATWG.utf8_encode (WHATWG.scalar_values s).

(** How the URL Standard's [application/x-www-form-urlencoded] parser reads
    a value back: every plus becomes a space, then the bytes are
    percent-decoded.  The repository holds no decoder; this one states what
    the receiving application gets from the link. *)
Definition plus_to_space (c : code_unit) : code_unit :=
  if c =? 43 then 32 else c.

Definition form_decode (value : jstring) : list N :=
  WHATWG.percent_decode (map plus_to_space value).

(** ** [copyToClipboard] of [lib/utils.ts]

    The function only talks to the browser.  A run is modelled by the list
    of browser operations it performs, in order, and by its outcome: the
    value the returned promise resolves to, or the exception it rejects
    with.  Which operation throws (for [writeText]: throws or returns a
    promise that rejects) is up to the browser and may depend on what was
    done before. *)

Module Clipboard.

Inductive op :=
| createElement_textarea
| set_value (text : jstring)
| set_position_fixed
| set_opacity_0
| appendChild_textArea
| focus
| select
| execCommand_copy
| removeChild_textArea
| console_error (message : string)
| writeText (text : jstring).

Record Browser := {
  (* [navigator.clipboard] is truthy *)
  has_clipboard : bool;
  (* the operation throws, given the operations performed so far *)
  throws : list op -> op -> bool
}.

(** A computation takes the operations performed so far and returns them,
    extended, with its outcome. *)
Definition run (A : Type) := list op -> list op * completion A.

Definition ret {A : Type} (a : A) : run A := fun done => (done, Return a).

Definition bind {A B : Type} (c : run A) (k : A -> run B) : run B :=
  fun done =>
    match c done with
    | (done', Return a) => k a done'
    | (done', Throw e) => (done', Throw e)
    end.

(** [try { body } catch { handler }] *)
Definition try_catch {A : Type} (body handler : run A) : run A :=
  fun done =>
    match body done with
    | (done', Return a) => (done', Return a)
    | (done', Throw _) => handler done'
    end.

(** One browser operation. *)
Definition call (b : Browser) (o : op) : run unit :=
  fun done =>
    (done ++ [o],
     if throws b done o then Throw (Error "thrown by the browser") else Return tt).

Notation "c1 ;; c2" := (bind c1 (fun _ => c2))
  (at level 61, right associativity).

Definition copyToClipboard (b : Browser) (text : jstring) : run bool :=
  if negb (has_clipboard b) then
    call b createElement_textarea ;;
    call b (set_value text) ;;
    call b set_position_fixed ;;
    call b set_opacity_0 ;;
    call b appendChild_textArea ;;
    call b focus ;;
    call b select ;;
    try_catch
      (call b execCommand_copy ;;
       call b removeChild_textArea ;;
       ret true)
      (call b (console_error "Fallback copy failed:") ;;
       call b removeChild_textArea ;;
       ret false)
  else
    try_catch
      (call b (writeText text) ;;
       ret true)
      (call b (console_error "Clipboard API copy failed:") ;;
       ret false).

(** The operations that put the text area into the page and take it out. *)
Definition is_append (o : op) : bool :=
  match o with appendChild_textArea => true | _ => false end.
Definition is_remove (o : op) : bool :=
  match o with removeChild_textArea => true | _ => false end.
Definition is_console_error (o : op) : bool :=
  match o with console_error _ => true | _ => false end.

End Clipboard.

(** ** The artifacts, written out

    The texts the four renderers produce for a name and an endpoint list
    that stay on their line: [n] is the trimmed name, [i] the re-joined
    endpoints, [mode] the selection mode when the flag is set. *)

(** [dedent]'s removal of [m] columns, from every line of a text or from
    every line but the first. *)
Definition strip_from (first : bool) (m : nat) (X : jstring) : jstring :=
  match split NL X with
  | l :: ls =>
      join [NL] ((if first then strip_line m l else l) :: map (strip_line m) ls)
  | [] => []
  end.

(** Stripping the line leaves what follows it alone: the line does not
    start with a space or a tab, or is at least [m] characters long. *)
Definition stays (m : nat) (l : jstring) : bool :=
  match l with
  | [] => true
  | h :: _ => negb ((h =? SP) || (h =? TAB)) || (m <=? length l)%nat
  end.

Definition last_line_stays (first : bool) (m : nat) (X : jstring) : bool :=
  let lines := split NL X in
  (negb first && (length lines =? 1)%nat) || stays m (last lines []).

(** A text with two quoted values in it. *)
Definition fill (A n B i C : jstring) : jstring :=
  A ++ DQ :: n ++ DQ :: B ++ DQ :: i ++ DQ :: C.

Definition command_text (n i : jstring) (lock : bool)
  (mode : option InstanceSelectionMode) : jstring := text
  ([ js "# pull the latest Blorp image";
     js "docker pull christianjuth/blorp:latest";
     [];
     js "# run it on port 8080 (host " ++ [8594] ++
       js " container), passing any runtime env" ++ [8209] ++ js "vars you need";
     js "docker run -d \ ";
     js "  --name blorp \ ";
     js "  -p 8080:80 \ ";
     js "  -e REACT_APP_NAME=" ++ quoted n ++ js " \ ";
     js "  -e REACT_APP_DEFAULT_INSTANCE=" ++ quoted i ++ js " \ ";
     js "  -e REACT_APP_LOCK_TO_DEFAULT_INSTANCE=" ++ quoted (lock_literal lock) ++
       js " \ " ] ++
   match mode with
   | Some m =>
       [ js "  -e REACT_APP_INSTANCE_SELECTION_MODE=" ++ quoted (mode_value m) ++
           js "  ";
         js "  christianjuth/blorp:latest" ]
   | None => [ js "  christianjuth/blorp:latest" ]
   end).

Definition dockerfile_text (n i : jstring) (lock : bool)
  (mode : option InstanceSelectionMode) : jstring := text
  [ js "FROM christianjuth/blorp:latest";
    [];
    js "ENV REACT_APP_NAME=" ++ quoted n;
    js "ENV REACT_APP_DEFAULT_INSTANCE=" ++ quoted i;
    js "ENV REACT_APP_LOCK_TO_DEFAULT_INSTANCE=" ++ quoted (lock_literal lock);
    match mode with
    | Some m => js "ENV REACT_APP_INSTANCE_SELECTION_MODE=" ++ quoted (mode_value m)
    | None => []
    end;
    [];
    js "EXPOSE 80";
    js "# Build:  docker build -t blorp-custom .";
    js "# Run:    docker run -d --name blorp -p 8080:80 blorp-custom" ].

Definition compose_text (n i : jstring) (lock : bool)
  (mode : option InstanceSelectionMode) : jstring := text
  ([ js "version: " ++ quoted (js "3.8");
     [];
     js "services:";
     js "  blorp:";
     js "    image: christianjuth/blorp:latest";
     js "    container_name: blorp";
     js "    ports:";
     js "      - " ++ quoted (js "8080:80");
     js "    environment:";
     js "      REACT_APP_NAME: " ++ quoted n;
     js "      REACT_APP_DEFAULT_INSTANCE: " ++ quoted i;
     js "      REACT_APP_LOCK_TO_DEFAULT_INSTANCE: " ++ quoted (lock_literal lock) ] ++
   match mode with
   | Some m =>
       [ js "  REACT_APP_INSTANCE_SELECTION_MODE: " ++ quoted (mode_value m) ]
   | None => []
   end).

(** The lines of the service document, [pad] being the indentation. *)
Definition kube_service (pad : jstring) : list jstring :=
  map (app pad)
    [ js "---";
      js "apiVersion: v1";
      js "kind: Service";
      js "metadata:";
      js "  name: blorp";
      js "  labels:";
      js "    app: blorp";
      js "spec:";
      js "  selector:";
      js "    app: blorp";
      js "  type: NodePort";
      js "  ports:";
      js "    - name: http";
      js "      port: 80";
      js "      targetPort: 80";
      js "      nodePort: 30080" ].

(** The lines of the deployment document after the first one. *)
Definition kube_deployment (pad n i : jstring) (lock : bool) : list jstring :=
  map (app pad)
    [ js "kind: Deployment";
      js "metadata:";
      js "  name: blorp";
      js "  labels:";
      js "    app: blorp";
      js "spec:";
      js "  replicas: 1";
      js "  selector:";
      js "    matchLabels:";
      js "      app: blorp";
      js "  template:";
      js "    metadata:";
      js "      labels:";
      js "        app: blorp";
      js "    spec:";
      js "      containers:";
      js "        - name: blorp";
      js "          image: christianjuth/blorp:latest";
      js "          ports:";
      js "            - containerPort: 80";
      js "          env:";
      js "            - name: REACT_APP_NAME";
      js "              value: " ++ quoted n;
      js "            - name: REACT_APP_DEFAULT_INSTANCE";
      js "              value: " ++ quoted i;
      js "            - name: REACT_APP_LOCK_TO_DEFAULT_INSTANCE";
      js "              value: " ++ quoted (lock_literal lock) ].

(** With one endpoint every line is flush; with several, every line but the
    first keeps two columns of indentation and the value line of the
    selection-mode entry has none. *)
Definition kube_text (n i : jstring) (lock : bool)
  (mode : option InstanceSelectionMode) : jstring := text
  match mode with
  | None =>
      js "apiVersion: apps/v1" :: kube_deployment [] n i lock ++
      [ js "            " ] ++ kube_service []
  | Some m =>
      js "apiVersion: apps/v1" :: kube_deployment (js "  ") n i lock ++
      [ js "              - name: REACT_APP_INSTANCE_SELECTION_MODE";
        js "value: " ++ quoted (mode_value m) ] ++ kube_service (js "  ")
  end.

(** * Properties

    ** Occurrences of a token in a text *)

Module Occ.

Lemma solid_parts tok :
  solid tok = true ->
  head_ok tok = true /\ last_ok tok = true /\ absent BS tok = true.
Proof.
  unfold solid. intros H. apply andb_prop in H as [H H3].
  apply andb_prop in H as [H1 H2]. auto.
Qed.

Lemma solid_head_ws tok c :
  solid tok = true -> is_ws c = true -> head_differs c tok = true.
Proof.
  intros H Hc. apply solid_parts in H as (H & _ & _).
  unfold head_ok, head_differs in *. destruct tok as [|h t]; [discriminate|].
  apply andb_prop in H as [H _].
  destruct (N.eqb_spec h c) as [->|]; [|reflexivity].
  rewrite Hc in H. discriminate.
Qed.

Lemma solid_last_ws tok c :
  solid tok = true -> is_ws c = true -> last_differs c tok = true.
Proof.
  intros H Hc. apply solid_parts in H as (_ & H & _).
  unfold last_ok, last_differs, head_differs in *.
  destruct (rev tok) as [|l r]; [discriminate|].
  destruct (N.eqb_spec l c) as [->|]; [|reflexivity].
  rewrite Hc in H. discriminate.
Qed.

Lemma solid_head_n tok : solid tok = true -> head_differs 110 tok = true.
Proof.
  intros H. apply solid_parts in H as (H & _ & _).
  unfold head_ok, head_differs in *. destruct tok as [|h t]; [discriminate|].
  apply andb_prop in H as [_ H]. exact H.
Qed.

Lemma solid_absent_BS tok : solid tok = true -> absent BS tok = true.
Proof. intros H. apply solid_parts in H as (_ & _ & H). exact H. Qed.

Lemma absent_head c tok :
  absent c tok = true -> tok <> [] -> head_differs c tok = true.
Proof.
  destruct tok as [|h t]; [congruence|]. simpl.
  intros H _. apply andb_prop in H as [H _]. exact H.
Qed.

Lemma solid_nonempty tok : solid tok = true -> tok <> [].
Proof. intros H ->. discriminate. Qed.

(** *** Characters in front of the text *)

Lemma starts_with_head_differs tok c s :
  head_differs c tok = true -> starts_with tok (c :: s) = false.
Proof.
  destruct tok as [|h t]; simpl; [discriminate|].
  intros H. apply negb_true_iff in H. rewrite H. reflexivity.
Qed.

Lemma occurrences_cons tok c s :
  head_differs c tok = true -> occurrences tok (c :: s) = occurrences tok s.
Proof.
  intros H. cbn [occurrences]. rewrite (starts_with_head_differs _ _ _ H).
  reflexivity.
Qed.

Lemma occurrences_dropWhile tok p s :
  (forall c, p c = true -> head_differs c tok = true) ->
  occurrences tok (dropWhile p s) = occurrences tok s.
Proof.
  intros Hp. induction s as [|c r IH]; [reflexivity|].
  cbn [dropWhile]. destruct (p c) eqn:E; [|reflexivity].
  rewrite IH. symmetry. apply occurrences_cons. auto.
Qed.

Lemma occurrences_skipn tok m s :
  (forall c, In c (firstn m s) -> head_differs c tok = true) ->
  occurrences tok (skipn m s) = occurrences tok s.
Proof.
  revert s. induction m as [|m IH]; intros s H; [reflexivity|].
  destruct s as [|c r]; [reflexivity|].
  cbn [skipn]. rewrite IH.
  - symmetry. apply occurrences_cons. apply H. left. reflexivity.
  - intros x Hx. apply H. right. exact Hx.
Qed.

(** *** Characters behind the text *)

Lemma starts_with_nil tok : tok <> [] -> starts_with tok [] = false.
Proof. destruct tok; [congruence|reflexivity]. Qed.

Lemma starts_with_cons_cons t tok x s :
  starts_with (t :: tok) (x :: s) = (t =? x) && starts_with tok s.
Proof. reflexivity. Qed.

Lemma starts_with_snoc tok c s :
  last_differs c tok = true ->
  starts_with tok (s ++ [c]) = starts_with tok s.
Proof.
  unfold last_differs. revert s.
  induction tok as [|t tok IH]; intros s H; [discriminate|].
  destruct tok as [|t2 tok'].
  - simpl in H. destruct s as [|x s']; simpl.
    + apply negb_true_iff in H. rewrite H. reflexivity.
    + reflexivity.
  - assert (H' : head_differs c (rev (t2 :: tok')) = true).
    { change (rev (t :: t2 :: tok')) with (rev (t2 :: tok') ++ [t]) in H.
      destruct (rev (t2 :: tok')) eqn:E.
      - apply (f_equal (@length _)) in E. rewrite length_rev in E. discriminate.
      - exact H. }
    destruct s as [|x s'].
    + cbn. apply andb_false_r.
    + rewrite <- app_comm_cons, !starts_with_cons_cons, (IH s' H'). reflexivity.
Qed.

Lemma occurrences_snoc tok c s :
  last_differs c tok = true ->
  occurrences tok (s ++ [c]) = occurrences tok s.
Proof.
  intros H. assert (Hne : tok <> []).
  { intros ->. discriminate. }
  induction s as [|x s IH].
  - cbn [app occurrences].
    rewrite (starts_with_snoc tok c [] H : starts_with tok [c] = starts_with tok []).
    rewrite (starts_with_nil tok Hne). reflexivity.
  - cbn [app occurrences].
    rewrite (starts_with_snoc tok c (x :: s) H : starts_with tok (x :: s ++ [c]) = _).
    rewrite IH. reflexivity.
Qed.

Lemma occurrences_app_r tok w s :
  (forall c, In c w -> last_differs c tok = true) ->
  occurrences tok (s ++ w) = occurrences tok s.
Proof.
  revert s. induction w as [|c w IH]; intros s H.
  - rewrite app_nil_r. reflexivity.
  - change (s ++ c :: w) with (s ++ [c] ++ w). rewrite app_assoc.
    rewrite IH.
    + apply occurrences_snoc. apply H. left. reflexivity.
    + intros x Hx. apply H. right. exact Hx.
Qed.

Lemma takeWhile_dropWhile p s : takeWhile p s ++ dropWhile p s = s.
Proof.
  induction s as [|c r IH]; [reflexivity|].
  simpl. destruct (p c); [|reflexivity]. simpl. rewrite IH. reflexivity.
Qed.

Lemma takeWhile_all p s c : In c (takeWhile p s) -> p c = true.
Proof.
  induction s as [|x r IH]; simpl; [tauto|].
  destruct (p x) eqn:E; simpl; [|tauto].
  intros [->|H]; auto.
Qed.

Lemma trimEnd_spec s :
  exists w, s = trimEnd s ++ w /\ forall c, In c w -> is_ws c = true.
Proof.
  exists (rev (takeWhile is_ws (rev s))). split.
  - unfold trimEnd. rewrite <- rev_app_distr, takeWhile_dropWhile, rev_involutive.
    reflexivity.
  - intros c Hc. apply in_rev in Hc. exact (takeWhile_all _ _ _ Hc).
Qed.

Lemma occurrences_trimEnd tok s :
  solid tok = true -> occurrences tok (trimEnd s) = occurrences tok s.
Proof.
  intros H. destruct (trimEnd_spec s) as (w & E & Hw).
  rewrite E at 2. symmetry. apply occurrences_app_r.
  intros c Hc. apply solid_last_ws; auto.
Qed.

Lemma occurrences_trim tok s :
  solid tok = true -> occurrences tok (trim s) = occurrences tok s.
Proof.
  intros H. unfold trim. rewrite occurrences_trimEnd by exact H.
  apply occurrences_dropWhile. intros c Hc. apply solid_head_ws; auto.
Qed.

(** *** A separator between two texts *)

Lemma starts_with_app_sep tok c a b :
  absent c tok = true ->
  starts_with tok (a ++ c :: b) = starts_with tok a.
Proof.
  revert a. induction tok as [|t tok IH]; intros a H; [destruct a; reflexivity|].
  simpl in H. apply andb_prop in H as [Ht H].
  destruct a as [|x a'].
  - simpl. apply negb_true_iff in Ht. rewrite Ht. reflexivity.
  - rewrite <- app_comm_cons, !starts_with_cons_cons, (IH a' H). reflexivity.
Qed.

Lemma occurrences_app_sep tok c a b :
  absent c tok = true -> tok <> [] ->
  occurrences tok (a ++ c :: b) = (occurrences tok a + occurrences tok b)%nat.
Proof.
  intros H Hne. induction a as [|x a IH].
  - simpl app. rewrite occurrences_cons by (apply absent_head; assumption).
    reflexivity.
  - rewrite <- app_comm_cons. cbn [occurrences].
    rewrite (starts_with_app_sep tok c (x :: a) b H : starts_with tok (x :: a ++ c :: b) = _).
    rewrite IH. lia.
Qed.

Lemma split_nonempty sep s : split sep s <> [].
Proof.
  destruct s as [|c r]; simpl; [discriminate|].
  destruct (c =? sep); [discriminate|].
  destruct (split sep r); discriminate.
Qed.

Lemma join_cons sep x l :
  l <> [] -> join sep (x :: l) = x ++ sep ++ join sep l.
Proof. destruct l; [congruence|reflexivity]. Qed.

Lemma join_split sep s : join [sep] (split sep s) = s.
Proof.
  induction s as [|c r IH]; [reflexivity|].
  cbn [split]. destruct (N.eqb_spec c sep) as [->|Hne].
  - rewrite join_cons by apply split_nonempty. rewrite IH. reflexivity.
  - pose proof (split_nonempty sep r) as Hs.
    destruct (split sep r) as [|h t]; [congruence|].
    destruct t as [|h2 t2].
    + simpl in *. rewrite IH. reflexivity.
    + rewrite join_cons by discriminate.
      rewrite join_cons in IH by discriminate.
      rewrite <- IH. reflexivity.
Qed.

Lemma absent_app c a b : absent c (a ++ b) = absent c a && absent c b.
Proof. apply forallb_app. Qed.

Lemma absent_repeat c x k : (x =? c) = false -> absent c (repeat x k) = true.
Proof.
  intros H. induction k as [|k IH]; [reflexivity|].
  simpl. rewrite H. exact IH.
Qed.

Lemma split_absent c t : absent c t = true -> split c t = [t].
Proof.
  induction t as [|x r IH]; [reflexivity|].
  simpl. intros H. apply andb_prop in H as [Hx H].
  apply negb_true_iff in Hx. rewrite Hx, (IH H). reflexivity.
Qed.

Lemma split_app sep a b :
  split sep (a ++ sep :: b) =
  removelast (split sep a) ++ [last (split sep a) []] ++ split sep b.
Proof.
  induction a as [|x a IH].
  - simpl. rewrite N.eqb_refl. reflexivity.
  - rewrite <- app_comm_cons. cbn [split]. rewrite IH.
    destruct (x =? sep); [|].
    + pose proof (split_nonempty sep a) as Hs.
      destruct (split sep a) as [|h t]; [congruence|]. reflexivity.
    + pose proof (split_nonempty sep a) as Hs.
      destruct (split sep a) as [|h t]; [congruence|].
      destruct t; reflexivity.
Qed.

Lemma split_app_eq sep a b : split sep (a ++ sep :: b) = split sep a ++ split sep b.
Proof.
  rewrite split_app, app_assoc, <- app_removelast_last; [reflexivity|].
  apply split_nonempty.
Qed.

Lemma occurrences_join tok c l :
  absent c tok = true -> tok <> [] ->
  occurrences tok (join [c] l) = total (map (occurrences tok) l).
Proof.
  intros H Hne. induction l as [|x l IH]; [reflexivity|].
  destruct l as [|y l].
  - simpl. lia.
  - rewrite join_cons by discriminate.
    change (x ++ [c] ++ join [c] (y :: l)) with (x ++ c :: join [c] (y :: l)).
    rewrite occurrences_app_sep by assumption. rewrite IH. reflexivity.
Qed.

Lemma occurrences_split tok c s :
  absent c tok = true -> tok <> [] ->
  total (map (occurrences tok) (split c s)) = occurrences tok s.
Proof.
  intros H Hne. rewrite <- (occurrences_join tok c) by assumption.
  rewrite join_split. reflexivity.
Qed.

Lemma total_map_ext (f g : jstring -> nat) l :
  (forall x, In x l -> f x = g x) -> total (map f l) = total (map g l).
Proof.
  induction l as [|x l IH]; intros H; [reflexivity|].
  simpl. rewrite H by (left; reflexivity). rewrite IH; [reflexivity|].
  intros y Hy. apply H. right. exact Hy.
Qed.

End Occ.

(** ** What [dedent] does to the occurrences of a token *)

Module DedentFacts.
Import Occ.

Lemma indent_of_Some l k :
  indent_of l = Some k -> k = length (takeWhile is_ws l) /\ (1 <= k)%nat.
Proof.
  unfold indent_of. destruct (takeWhile is_ws l) as [|c w]; [discriminate|].
  destruct (dropWhile is_ws l); [discriminate|].
  intros [= <-]. split; [reflexivity|simpl; lia].
Qed.

Lemma indent_of_None l c r :
  l = c :: r -> is_ws c = true -> indent_of l = None ->
  forall x, In x l -> is_ws x = true.
Proof.
  intros -> Hc H x Hx. unfold indent_of in H.
  rewrite <- (takeWhile_dropWhile is_ws (c :: r)) in Hx.
  simpl in H, Hx. rewrite Hc in H, Hx.
  destruct (dropWhile is_ws r) eqn:E; [|discriminate].
  rewrite app_nil_r in Hx.
  apply (takeWhile_all is_ws (c :: r)). simpl. rewrite Hc. exact Hx.
Qed.

Lemma In_firstn (m : nat) (l : jstring) x : In x (firstn m l) -> In x l.
Proof.
  revert l. induction m as [|m IH]; intros [|c r]; simpl; try tauto.
  intros [->|H]; auto.
Qed.

Lemma firstn_takeWhile l m x :
  (m <= length (takeWhile is_ws l))%nat -> In x (firstn m l) -> is_ws x = true.
Proof.
  intros Hm Hx. rewrite <- (takeWhile_dropWhile is_ws l) in Hx.
  rewrite firstn_app in Hx.
  replace (m - length (takeWhile is_ws l))%nat with 0%nat in Hx by lia.
  rewrite app_nil_r in Hx.
  apply (takeWhile_all is_ws l).
  exact (In_firstn m (takeWhile is_ws l) x Hx).
Qed.

Lemma SP_TAB_ws c : (c =? SP) || (c =? TAB) = true -> is_ws c = true.
Proof.
  intros H. apply orb_prop in H as [H|H]; apply N.eqb_eq in H; subst; reflexivity.
Qed.

Lemma occurrences_strip_line tok m l :
  solid tok = true ->
  (forall k, indent_of l = Some k -> (m <= k)%nat) ->
  occurrences tok (strip_line m l) = occurrences tok l.
Proof.
  intros Hs Hm. unfold strip_line. destruct l as [|c r] eqn:El; [reflexivity|].
  destruct ((c =? SP) || (c =? TAB)) eqn:Ec; [|reflexivity].
  apply SP_TAB_ws in Ec. unfold slice. rewrite <- El in *.
  apply occurrences_skipn. intros x Hx. apply solid_head_ws; [exact Hs|].
  destruct (indent_of l) as [k|] eqn:Ei.
  - destruct (indent_of_Some l k Ei) as [Hk _]. specialize (Hm k eq_refl).
    apply (firstn_takeWhile l m); [lia|exact Hx].
  - apply (indent_of_None l c r El Ec Ei).
    exact (In_firstn m l x Hx).
Qed.

Lemma mindent_from_le lines :
  forall acc m, mindent_from acc lines = Some m ->
  (forall l k, In l lines -> indent_of l = Some k -> (m <= k)%nat) /\
  (forall a, acc = Some (S a) -> (m <= S a)%nat).
Proof.
  induction lines as [|l rest IH]; intros acc m H.
  - simpl in H. subst acc. split; [intros ? ? []|].
    intros a [= ->]. lia.
  - cbn [mindent_from] in H. destruct (indent_of l) as [i|] eqn:Ei.
    + destruct (indent_of_Some l i Ei) as [_ Hi].
      assert (Hcase : exists acc', mindent_from acc' rest = Some m /\
                (exists i', acc' = Some (S i') /\ (S i' <= i)%nat) /\
                (forall a, acc = Some (S a) -> exists i', acc' = Some (S i') /\ (S i' <= S a)%nat)).
      { destruct acc as [[|a]|].
        - exists (Some i). split; [exact H|]. split.
          + destruct i; [lia|]. eexists; split; [reflexivity|lia].
          + discriminate.
        - exists (Some (Nat.min (S a) i)). split; [exact H|].
          destruct i as [|i0]; [lia|]. split.
          + exists (Nat.min a i0). split; [reflexivity|lia].
          + intros a' [= <-]. exists (Nat.min a i0). split; [reflexivity|lia].
        - exists (Some i). split; [exact H|]. split.
          + destruct i; [lia|]. eexists; split; [reflexivity|lia].
          + discriminate. }
      destruct Hcase as (acc' & H' & (i' & Ei' & Hle) & Hacc).
      destruct (IH acc' m H') as [IH1 IH2]. specialize (IH2 i' Ei').
      split.
      * intros l0 k [<-|Hin] Hk; [|eauto].
        rewrite Ei in Hk. injection Hk as <-. lia.
      * intros a Ha. destruct (Hacc a Ha) as (j & Ej & Hj).
        rewrite Ei' in Ej. injection Ej as <-. lia.
    + destruct (IH acc m H) as [IH1 IH2]. split; [|exact IH2].
      intros l0 k [<-|Hin] Hk; [congruence|eauto].
Qed.

Lemma mindent_le lines m l k :
  mindent lines = Some m -> In l lines -> indent_of l = Some k -> (m <= k)%nat.
Proof.
  intros H. destruct (mindent_from_le lines None m H) as [H1 _]. apply H1.
Qed.

Lemma mindent_from_None lines :
  forall acc, mindent_from acc lines = None ->
  acc = None /\ forall l, In l lines -> indent_of l = None.
Proof.
  induction lines as [|l rest IH]; intros acc H.
  - simpl in H. split; [exact H|intros ? []].
  - cbn [mindent_from] in H. destruct (indent_of l) as [i|] eqn:Ei.
    + destruct acc as [[|a]|]; apply IH in H; destruct H; discriminate.
    + destruct (IH acc H) as [-> IH']. split; [reflexivity|].
      intros l0 [<-|Hin]; auto.
Qed.

Lemma occurrences_strip_indentation tok s :
  solid tok = true -> absent NL tok = true ->
  occurrences tok (strip_indentation s) = occurrences tok s.
Proof.
  intros Hs Hnl. pose proof (solid_nonempty tok Hs) as Hne.
  unfold strip_indentation. destruct (mindent (split NL s)) as [m|] eqn:Em;
    [|reflexivity].
  rewrite occurrences_join by assumption. rewrite map_map.
  rewrite <- (occurrences_split tok NL s) by assumption.
  apply total_map_ext. intros l Hl. apply occurrences_strip_line; [exact Hs|].
  intros k Hk. exact (mindent_le _ _ _ _ Em Hl Hk).
Qed.

(** *** The replacement of [\n] *)

Lemma list_ind2 (P : jstring -> Prop) :
  P [] -> (forall c, P [c]) ->
  (forall c d r, P r -> P (d :: r) -> P (c :: d :: r)) ->
  forall s, P s.
Proof.
  intros H0 H1 H2.
  assert (H : forall s, P s /\ forall c, P (c :: s)).
  { induction s as [|d r [IHr IHc]]; split; auto. }
  intros s. apply H.
Qed.

Lemma replace2_cons2 a b by_ c d r :
  replace2 a b by_ (c :: d :: r) =
  if (c =? a) && (d =? b) then by_ :: replace2 a b by_ r
  else c :: replace2 a b by_ (d :: r).
Proof. reflexivity. Qed.

Lemma starts_with_replace2 tok b by_ s :
  absent BS tok = true ->
  starts_with tok s = true -> starts_with tok (replace2 BS b by_ s) = true.
Proof.
  revert s. induction tok as [|t tok IH]; intros s Ha H; [reflexivity|].
  simpl in Ha. apply andb_prop in Ha as [Ht Ha].
  destruct s as [|c [|d r]]; [discriminate|exact H|].
  rewrite starts_with_cons_cons in H. apply andb_prop in H as [Hc H].
  apply N.eqb_eq in Hc. subst c. rewrite replace2_cons2.
  apply negb_true_iff in Ht. rewrite Ht. cbn [andb].
  rewrite starts_with_cons_cons, N.eqb_refl. cbn [andb]. apply IH; assumption.
Qed.

Lemma starts_with_replace2_inv tok b by_ s :
  absent BS tok = true -> absent by_ tok = true ->
  starts_with tok (replace2 BS b by_ s) = true -> starts_with tok s = true.
Proof.
  revert s. induction tok as [|t tok IH]; intros s Ha Hb H; [reflexivity|].
  simpl in Ha, Hb. apply andb_prop in Ha as [Ht Ha]. apply andb_prop in Hb as [Ht' Hb].
  destruct s as [|c [|d r]]; [discriminate|exact H|].
  rewrite replace2_cons2 in H. destruct ((c =? BS) && (d =? b)) eqn:E.
  - rewrite starts_with_cons_cons in H. apply negb_true_iff in Ht'.
    rewrite Ht' in H. discriminate.
  - rewrite starts_with_cons_cons in H. apply andb_prop in H as [Hc H].
    rewrite starts_with_cons_cons, Hc. cbn [andb]. apply IH; assumption.
Qed.

Lemma occurrences_replace2_le tok b by_ s :
  absent BS tok = true -> head_differs b tok = true ->
  (occurrences tok s <= occurrences tok (replace2 BS b by_ s))%nat.
Proof.
  intros Ha Hb. assert (Hne : tok <> []) by (intros ->; discriminate).
  induction s as [| c | c d r IHr IHd] using list_ind2.
  - reflexivity.
  - reflexivity.
  - rewrite replace2_cons2. destruct ((c =? BS) && (d =? b)) eqn:E.
    + apply andb_prop in E as [Ec Ed]. apply N.eqb_eq in Ec, Ed. subst c d.
      rewrite (occurrences_cons tok BS) by (apply absent_head; assumption).
      rewrite (occurrences_cons tok b) by exact Hb.
      cbn [occurrences]. lia.
    + cbn [occurrences] in *.
      destruct (starts_with tok (c :: d :: r)) eqn:Es.
      * pose proof (starts_with_replace2 tok b by_ (c :: d :: r) Ha Es) as Hs.
        rewrite replace2_cons2, E in Hs. rewrite Hs. lia.
      * lia.
Qed.

Lemma occurrences_replace2 tok b by_ s :
  absent BS tok = true -> absent by_ tok = true -> head_differs b tok = true ->
  occurrences tok (replace2 BS b by_ s) = occurrences tok s.
Proof.
  intros Ha Hy Hb. assert (Hne : tok <> []) by (intros ->; discriminate).
  induction s as [| c | c d r IHr IHd] using list_ind2.
  - reflexivity.
  - reflexivity.
  - rewrite replace2_cons2. destruct ((c =? BS) && (d =? b)) eqn:E.
    + apply andb_prop in E as [Ec Ed]. apply N.eqb_eq in Ec, Ed. subst c d.
      rewrite (occurrences_cons tok BS) by (apply absent_head; assumption).
      rewrite (occurrences_cons tok b) by exact Hb.
      rewrite (occurrences_cons tok by_) by (apply absent_head; assumption).
      exact IHr.
    + cbn [occurrences] in *. rewrite IHd. f_equal.
      destruct (starts_with tok (c :: d :: r)) eqn:Es.
      * pose proof (starts_with_replace2 tok b by_ (c :: d :: r) Ha Es) as Hs.
        rewrite replace2_cons2, E in Hs. rewrite Hs. reflexivity.
      * destruct (starts_with tok (c :: replace2 BS b by_ (d :: r))) eqn:Es'; [|reflexivity].
        pose proof (starts_with_replace2_inv tok b by_ (c :: d :: r) Ha Hy) as Hs.
        rewrite replace2_cons2, E in Hs. specialize (Hs Es'). congruence.
Qed.

(** A one-line solid token occurs in [finish s] exactly as often as in [s]. *)
Lemma occurrences_finish tok s :
  solid tok = true -> absent NL tok = true ->
  occurrences tok (finish s) = occurrences tok s.
Proof.
  intros Hs Hnl. unfold finish.
  rewrite occurrences_replace2;
    [|apply solid_absent_BS; exact Hs|exact Hnl|apply solid_head_n; exact Hs].
  rewrite occurrences_trim by exact Hs.
  apply occurrences_strip_indentation; assumption.
Qed.

End DedentFacts.

(** ** Templates with quoted values *)

Module TemplateFacts.
Import Occ DedentFacts.

Lemma starts_with_app_mono tok a b :
  starts_with tok a = true -> starts_with tok (a ++ b) = true.
Proof.
  revert a. induction tok as [|t tok IH]; intros a H; [reflexivity|].
  destruct a as [|x a]; [discriminate|].
  rewrite starts_with_cons_cons in H. apply andb_prop in H as [Hx H].
  rewrite <- app_comm_cons, starts_with_cons_cons, Hx. cbn [andb]. auto.
Qed.

Lemma occurrences_app_l tok a b :
  (occurrences tok b <= occurrences tok (a ++ b))%nat.
Proof.
  induction a as [|x a IH]; [reflexivity|].
  rewrite <- app_comm_cons. cbn [occurrences]. lia.
Qed.

Lemma occurrences_app_ge tok a b :
  (occurrences tok a + occurrences tok b <= occurrences tok (a ++ b))%nat.
Proof.
  induction a as [|x a IH].
  - reflexivity.
  - rewrite <- app_comm_cons. cbn [occurrences].
    destruct (starts_with tok (x :: a)) eqn:E.
    + pose proof (starts_with_app_mono tok (x :: a) b E) as E'.
      rewrite <- app_comm_cons in E'. rewrite E'. lia.
    + lia.
Qed.

Lemma starts_with_self tok s : starts_with tok (tok ++ s) = true.
Proof.
  induction tok as [|t tok IH]; [reflexivity|].
  rewrite <- app_comm_cons, starts_with_cons_cons, N.eqb_refl. exact IH.
Qed.

(** A text that holds the token between two other texts. *)
Lemma occurrences_infix tok a b :
  tok <> [] -> (1 <= occurrences tok (a ++ tok ++ b))%nat.
Proof.
  intros Hne. pose proof (occurrences_app_l tok a (tok ++ b)) as H.
  destruct tok as [|t tok]; [congruence|].
  assert (1 <= occurrences (t :: tok) ((t :: tok) ++ b))%nat; [|lia].
  rewrite <- app_comm_cons. cbn [occurrences].
  rewrite (app_comm_cons tok b t), starts_with_self. lia.
Qed.

(** The five raw strings and four values of the renderers' templates. *)
Lemma interpolate_5 r0 r1 r2 r3 r4 n i l m :
  interpolate [r0; r1; r2; r3; r4] [n; i; l; m] =
  unescape_raw r0 ++ n ++ unescape_raw r1 ++ i ++ unescape_raw r2 ++ l ++
  unescape_raw r3 ++ m ++ unescape_raw r4.
Proof. cbn [interpolate]. rewrite !app_nil_r. reflexivity. Qed.

Lemma same_eq a b : same a b = true -> a = b.
Proof. unfold same. destruct (list_eq_dec N.eq_dec a b); [auto|discriminate]. Qed.

Lemma quoted_shape_spec u0 u1 u2 :
  quoted_shape u0 u1 u2 = true ->
  u0 = opens u0 ++ [DQ] /\ u1 = DQ :: between u1 ++ [DQ] /\ u2 = DQ :: closes u2.
Proof.
  unfold quoted_shape. intros H.
  apply andb_prop in H as [H H2]. apply andb_prop in H as [H0 H1].
  repeat split; apply same_eq; assumption.
Qed.

Lemma interpolate_quoted r0 r1 r2 r3 r4 n i l m :
  quoted_shape (unescape_raw r0) (unescape_raw r1) (unescape_raw r2) = true ->
  interpolate [r0; r1; r2; r3; r4] [n; i; l; m] =
  opens (unescape_raw r0) ++ DQ :: n ++ DQ :: between (unescape_raw r1) ++
  DQ :: i ++ DQ :: tail_text r2 r3 r4 l m.
Proof.
  intros H. apply quoted_shape_spec in H as (H0 & H1 & H2).
  rewrite interpolate_5. unfold tail_text.
  rewrite H0 at 1. rewrite H1 at 1. rewrite H2 at 1.
  repeat (rewrite <- ?app_assoc, <- ?app_comm_cons). reflexivity.
Qed.

(** A token without double quote: the template's own occurrences and those
    inside the two free values add up. *)
Lemma occurrences_dedent_quoted tok r0 r1 r2 r3 r4 n i l m :
  solid tok = true -> absent NL tok = true -> absent DQ tok = true ->
  quoted_shape (unescape_raw r0) (unescape_raw r1) (unescape_raw r2) = true ->
  occurrences tok (dedent [r0; r1; r2; r3; r4] [n; i; l; m]) =
  (occurrences tok (opens (unescape_raw r0)) + occurrences tok n +
   occurrences tok (between (unescape_raw r1)) + occurrences tok i +
   occurrences tok (tail_text r2 r3 r4 l m))%nat.
Proof.
  intros Hs Hnl Hq Hshape. pose proof (solid_nonempty tok Hs) as Hne.
  unfold dedent. rewrite occurrences_finish by assumption.
  rewrite interpolate_quoted by assumption.
  rewrite !occurrences_app_sep by assumption. lia.
Qed.

(** Any token: the occurrences in the template's tail survive. *)
Lemma occurrences_dedent_tail tok r0 r1 r2 r3 r4 n i l m :
  solid tok = true -> absent NL tok = true ->
  quoted_shape (unescape_raw r0) (unescape_raw r1) (unescape_raw r2) = true ->
  (occurrences tok (tail_text r2 r3 r4 l m) <=
   occurrences tok (dedent [r0; r1; r2; r3; r4] [n; i; l; m]))%nat.
Proof.
  intros Hs Hnl Hshape. unfold dedent. rewrite occurrences_finish by assumption.
  rewrite interpolate_quoted by assumption.
  generalize (tail_text r2 r3 r4 l m). intros t.
  change (opens (unescape_raw r0) ++ DQ :: n ++ DQ :: between (unescape_raw r1) ++
          DQ :: i ++ DQ :: t)
    with (opens (unescape_raw r0) ++ [DQ] ++ n ++ [DQ] ++ between (unescape_raw r1) ++
          [DQ] ++ i ++ [DQ] ++ t).
  repeat (etransitivity; [|apply occurrences_app_l]). reflexivity.
Qed.

(** The values the renderers embed. *)
Lemma occurrences_instances_of tok raw :
  solid tok = true -> absent COMMA tok = true ->
  occurrences tok (instances_of raw) = occurrences tok raw.
Proof.
  intros Hs Hc. pose proof (solid_nonempty tok Hs) as Hne.
  unfold instances_of, endpoints. rewrite occurrences_join by assumption.
  rewrite map_map. rewrite <- (occurrences_split tok COMMA raw) by assumption.
  apply total_map_ext. intros x _. apply occurrences_trim. exact Hs.
Qed.

End TemplateFacts.

(** ** The selection-mode entry in the four artifacts *)

Module SelectionMode.
Import Occ DedentFacts TemplateFacts.

Lemma length_endpoints raw : length (endpoints raw) = length (split COMMA raw).
Proof. unfold endpoints. apply length_map. Qed.

Lemma hasMultipleInstances_endpoints s :
  App.hasMultipleInstances s = (1 <? length (endpoints (defaultInstance s)))%nat.
Proof. unfold App.hasMultipleInstances. rewrite length_endpoints. reflexivity. Qed.

(** The token count of an artifact, for a name and an endpoint list that do
    not hold the token themselves. *)
Lemma token_count (c : Config) (t : ConfigType) :
  occurrences SELECTION_MODE_KEY (REACT_APP_NAME c) = 0%nat ->
  occurrences SELECTION_MODE_KEY (REACT_APP_DEFAULT_INSTANCE c) = 0%nat ->
  occurrences SELECTION_MODE_KEY (App.render t c) =
  if hasMultipleInstances c then 1%nat else 0%nat.
Proof.
  intros Hn Hi.
  assert (Hn' : occurrences SELECTION_MODE_KEY (trim (REACT_APP_NAME c)) = 0%nat).
  { rewrite occurrences_trim by closed. exact Hn. }
  assert (Hi' : occurrences SELECTION_MODE_KEY
                  (instances_of (REACT_APP_DEFAULT_INSTANCE c)) = 0%nat).
  { rewrite occurrences_instances_of by closed. exact Hi. }
  destruct c as [n raw lock mode multi]. cbn [REACT_APP_NAME REACT_APP_DEFAULT_INSTANCE
    hasMultipleInstances] in *.
  destruct t; cbn [App.render];
    unfold getDockerCommand, getDockerfile, getCompose, getKube;
    cbn [REACT_APP_NAME REACT_APP_DEFAULT_INSTANCE hasMultipleInstances
         REACT_APP_LOCK_TO_DEFAULT_INSTANCE REACT_APP_INSTANCE_SELECTION_MODE];
    rewrite ?(occurrences_trim SELECTION_MODE_KEY) by closed;
    rewrite occurrences_dedent_quoted by closed;
    rewrite Hn', Hi';
    destruct lock, mode, multi; closed.
Qed.

End SelectionMode.

(** ** An entry that spans two lines *)

Module TwoLines.
Import Occ DedentFacts TemplateFacts.

Lemma takeWhile_indent a t :
  head_differs SP t = true -> (forall c, is_ws c = true -> head_differs c t = true) ->
  takeWhile is_ws (repeat SP a ++ t) = repeat SP a /\
  dropWhile is_ws (repeat SP a ++ t) = t.
Proof.
  intros _ Hws. induction a as [|a [IH1 IH2]].
  - destruct t as [|h r]; [split; reflexivity|].
    simpl. destruct (is_ws h) eqn:E; [|split; reflexivity].
    specialize (Hws h E). simpl in Hws. rewrite N.eqb_refl in Hws. discriminate.
  - simpl. rewrite IH1, IH2. split; reflexivity.
Qed.

Lemma indent_of_indented a t :
  (1 <= a)%nat -> solid t = true -> indent_of (repeat SP a ++ t) = Some a.
Proof.
  intros Ha Hs.
  destruct (takeWhile_indent a t) as [H1 H2].
  { apply solid_head_ws; [exact Hs|reflexivity]. }
  { intros c Hc. apply solid_head_ws; assumption. }
  unfold indent_of. rewrite H1, H2.
  destruct a as [|a]; [lia|]. cbn [repeat].
  destruct t as [|h r]; [discriminate|].
  cbn [length]. rewrite repeat_length. reflexivity.
Qed.

Lemma skipn_indent m a t :
  (m <= a)%nat -> skipn m (repeat SP a ++ t) = repeat SP (a - m) ++ t.
Proof.
  revert a. induction m as [|m IH]; intros a H.
  - rewrite Nat.sub_0_r. reflexivity.
  - destruct a as [|a]; [lia|]. cbn [repeat app skipn]. rewrite IH by lia.
    reflexivity.
Qed.

Lemma strip_line_indented m a t :
  solid t = true -> ((1 <= a)%nat -> (m <= a)%nat) ->
  strip_line m (repeat SP a ++ t) = repeat SP (a - m) ++ t.
Proof.
  intros Hs Hm. destruct a as [|a].
  - cbn [repeat app Nat.sub]. unfold strip_line.
    destruct t as [|h r]; [reflexivity|].
    destruct ((h =? SP) || (h =? TAB)) eqn:E; [|reflexivity].
    apply SP_TAB_ws in E. pose proof (solid_head_ws _ _ Hs E) as Hd.
    simpl in Hd. rewrite N.eqb_refl in Hd. discriminate.
  - unfold strip_line. cbn [repeat app]. cbn [N.eqb SP Pos.eqb orb].
    change (SP :: repeat SP a ++ t) with (repeat SP (S a) ++ t).
    apply skipn_indent. apply Hm. lia.
Qed.

Lemma join_middle c P x y Q :
  exists pre post, join [c] (P ++ x :: y :: Q) = pre ++ (x ++ c :: y) ++ post.
Proof.
  induction P as [|p P (pre & post & IH)].
  - exists []. destruct Q as [|q Q].
    + exists []. simpl. rewrite app_nil_r. reflexivity.
    + exists (c :: join [c] (q :: Q)). cbn [app].
      rewrite (join_cons [c] x (y :: q :: Q)) by discriminate.
      rewrite (join_cons [c] y (q :: Q)) by discriminate. simpl.
      rewrite <- !app_assoc. reflexivity.
  - exists (p ++ c :: pre), post.
    rewrite <- app_comm_cons, join_cons by (destruct P; discriminate).
    rewrite IH. simpl. rewrite <- !app_assoc. reflexivity.
Qed.

Lemma lines_of_text X l1 l2 Y :
  absent NL l1 = true -> absent NL l2 = true ->
  split NL (X ++ NL :: l1 ++ NL :: l2 ++ NL :: Y) =
  split NL X ++ l1 :: l2 :: split NL Y.
Proof.
  intros H1 H2. rewrite !split_app_eq, (split_absent NL l1 H1), (split_absent NL l2 H2).
  reflexivity.
Qed.

Lemma two_lines_head c t1 k t2 :
  head_differs c t1 = true -> head_differs c (two_lines t1 k t2) = true.
Proof. destruct t1; [discriminate|]. intros H. exact H. Qed.

Lemma two_lines_last c t1 k t2 :
  last_differs c t2 = true -> last_differs c (two_lines t1 k t2) = true.
Proof.
  unfold last_differs, two_lines. intros H.
  change (t1 ++ NL :: repeat SP k ++ t2) with (t1 ++ (NL :: repeat SP k) ++ t2).
  rewrite !rev_app_distr. destruct (rev t2); [discriminate|]. exact H.
Qed.

Lemma two_lines_absent_BS t1 k t2 :
  absent BS t1 = true -> absent BS t2 = true ->
  absent BS (two_lines t1 k t2) = true.
Proof.
  intros H1 H2. unfold two_lines.
  change (t1 ++ NL :: repeat SP k ++ t2) with (t1 ++ [NL] ++ repeat SP k ++ t2).
  rewrite !absent_app, H1, H2, absent_repeat by reflexivity. reflexivity.
Qed.

(** The entry survives [dedent]'s last steps, with some indentation of its
    second line. *)
Lemma two_lines_finish X Y a b t1 t2 :
  (1 <= a)%nat -> line_token t1 = true -> line_token t2 = true ->
  exists k,
    (k <= b)%nat /\
    (1 <= occurrences (two_lines t1 k t2)
            (finish (X ++ NL :: (repeat SP a ++ t1) ++ NL ::
                     (repeat SP b ++ t2) ++ NL :: Y)))%nat.
Proof.
  intros Ha H1 H2.
  apply andb_prop in H1 as [Hs1 Hn1]. apply andb_prop in H2 as [Hs2 Hn2].
  set (l1 := repeat SP a ++ t1). set (l2 := repeat SP b ++ t2).
  assert (Hl1 : absent NL l1 = true).
  { unfold l1. rewrite absent_app, Hn1, absent_repeat by reflexivity. reflexivity. }
  assert (Hl2 : absent NL l2 = true).
  { unfold l2. rewrite absent_app, Hn2, absent_repeat by reflexivity. reflexivity. }
  set (S := X ++ NL :: l1 ++ NL :: l2 ++ NL :: Y).
  assert (Hlines : split NL S = split NL X ++ l1 :: l2 :: split NL Y).
  { apply lines_of_text; assumption. }
  assert (Hi1 : indent_of l1 = Some a) by (apply indent_of_indented; assumption).
  assert (Hin1 : In l1 (split NL S)).
  { rewrite Hlines. apply in_or_app. right. left. reflexivity. }
  assert (Hin2 : In l2 (split NL S)).
  { rewrite Hlines. apply in_or_app. right. right. left. reflexivity. }
  destruct (mindent (split NL S)) as [m|] eqn:Em.
  2:{ apply mindent_from_None in Em as [_ Em]. rewrite (Em l1 Hin1) in Hi1.
      discriminate. }
  pose proof (mindent_le _ _ _ _ Em Hin1 Hi1) as Hma.
  exists (b - m)%nat. split; [lia|].
  pose proof (solid_nonempty t1 Hs1) as Hne1.
  assert (Hne : two_lines t1 (b - m) t2 <> []).
  { unfold two_lines. destruct t1; [congruence|discriminate]. }
  unfold finish.
  eapply Nat.le_trans; [|apply occurrences_replace2_le].
  2:{ apply two_lines_absent_BS; apply solid_absent_BS; assumption. }
  2:{ apply two_lines_head. apply solid_head_n. exact Hs1. }
  unfold trim.
  destruct (trimEnd_spec (trimStart (strip_indentation S))) as (w & Ew & Hw).
  rewrite <- (occurrences_app_r (two_lines t1 (b - m) t2) w).
  2:{ intros c Hc. apply two_lines_last. apply solid_last_ws; auto. }
  rewrite <- Ew. unfold trimStart. rewrite occurrences_dropWhile.
  2:{ intros c Hc. apply two_lines_head. apply solid_head_ws; auto. }
  unfold strip_indentation. fold S. rewrite Em, Hlines, map_app. cbn [map].
  unfold l1 at 1. rewrite (strip_line_indented m a t1 Hs1) by (intros _; exact Hma).
  unfold l2 at 1. rewrite (strip_line_indented m b t2 Hs2).
  2:{ intros Hb. apply (mindent_le _ _ _ _ Em Hin2).
      apply indent_of_indented; assumption. }
  destruct (join_middle NL (map (strip_line m) (split NL X))
              (repeat SP (a - m) ++ t1) (repeat SP (b - m) ++ t2)
              (map (strip_line m) (split NL Y))) as (pre & post & E).
  rewrite E.
  replace (pre ++ ((repeat SP (a - m) ++ t1) ++ NL :: repeat SP (b - m) ++ t2) ++ post)
    with ((pre ++ repeat SP (a - m)) ++ two_lines t1 (b - m) t2 ++ post).
  - apply occurrences_infix. exact Hne.
  - unfold two_lines. rewrite <- !app_assoc. reflexivity.
Qed.

End TwoLines.

(** ** The entries survive [dedent] *)

Module EntryFacts.
Import Occ DedentFacts TemplateFacts TwoLines.

Lemma two_lines_solid t1 k t2 :
  solid t1 = true -> solid t2 = true -> solid (two_lines t1 k t2) = true.
Proof.
  intros H1 H2.
  pose proof (two_lines_absent_BS t1 k t2 (solid_absent_BS _ H1) (solid_absent_BS _ H2)) as Hb.
  apply solid_parts in H1 as (Hh & _ & _). apply solid_parts in H2 as (_ & Hl & _).
  unfold solid. rewrite Hb, !andb_true_r. apply andb_true_intro. split.
  - destruct t1; [discriminate|exact Hh].
  - unfold last_ok, two_lines in *.
    change (t1 ++ NL :: repeat SP k ++ t2) with (t1 ++ (NL :: repeat SP k) ++ t2).
    rewrite !rev_app_distr. destruct (rev t2); [discriminate|exact Hl].
Qed.

(** An entry on two lines inside the text handed to [finish]. *)
Lemma two_lines_artifact X0 X1 Y a b t1 t2 T :
  (1 <= a)%nat -> line_token t1 = true -> line_token t2 = true ->
  T = X1 ++ NL :: (repeat SP a ++ t1) ++ NL :: (repeat SP b ++ t2) ++ NL :: Y ->
  exists k, (k <= b)%nat /\
            (1 <= occurrences (two_lines t1 k t2) (trim (finish (X0 ++ T))))%nat.
Proof.
  intros Ha H1 H2 ->.
  destruct (two_lines_finish (X0 ++ X1) Y a b t1 t2 Ha H1 H2) as (k & Hb & Hk).
  exists k. split; [exact Hb|]. rewrite occurrences_trim.
  - rewrite <- app_assoc in Hk. exact Hk.
  - apply andb_prop in H1 as [H1 _]. apply andb_prop in H2 as [H2 _].
    apply two_lines_solid; assumption.
Qed.

Lemma interpolate_tail r0 r1 r2 r3 r4 n i l m :
  quoted_shape (unescape_raw r0) (unescape_raw r1) (unescape_raw r2) = true ->
  exists X0, interpolate [r0; r1; r2; r3; r4] [n; i; l; m] =
             X0 ++ tail_text r2 r3 r4 l m.
Proof.
  intros H. rewrite interpolate_quoted by exact H.
  exists (opens (unescape_raw r0) ++ [DQ] ++ n ++ [DQ] ++
          between (unescape_raw r1) ++ [DQ] ++ i ++ [DQ]).
  repeat (rewrite <- ?app_assoc, <- ?app_comm_cons). reflexivity.
Qed.






(** The selection-mode entry of each artifact, when the flag is set. *)
Lemma command_mode c :
  hasMultipleInstances c = true ->
  (1 <= occurrences (command_mode_entry (REACT_APP_INSTANCE_SELECTION_MODE c))
          (getDockerCommand c))%nat.
Proof.
  destruct c as [n raw lock mode multi]. unfold getDockerCommand.
  cbn [REACT_APP_NAME REACT_APP_DEFAULT_INSTANCE hasMultipleInstances
       REACT_APP_LOCK_TO_DEFAULT_INSTANCE REACT_APP_INSTANCE_SELECTION_MODE].
  intros ->.
  eapply Nat.le_trans; [|apply occurrences_dedent_tail; destruct mode; closed].
  destruct lock, mode; vm_compute; lia.
Qed.

Lemma dockerfile_mode c :
  hasMultipleInstances c = true ->
  (1 <= occurrences (dockerfile_mode_entry (REACT_APP_INSTANCE_SELECTION_MODE c))
          (getDockerfile c))%nat.
Proof.
  destruct c as [n raw lock mode multi]. unfold getDockerfile.
  cbn [REACT_APP_NAME REACT_APP_DEFAULT_INSTANCE hasMultipleInstances
       REACT_APP_LOCK_TO_DEFAULT_INSTANCE REACT_APP_INSTANCE_SELECTION_MODE].
  intros ->. rewrite occurrences_trim by (destruct mode; closed).
  eapply Nat.le_trans; [|apply occurrences_dedent_tail; destruct mode; closed].
  destruct lock, mode; vm_compute; lia.
Qed.

Lemma compose_mode c :
  hasMultipleInstances c = true ->
  (1 <= occurrences (compose_mode_entry (REACT_APP_INSTANCE_SELECTION_MODE c))
          (getCompose c))%nat.
Proof.
  destruct c as [n raw lock mode multi]. unfold getCompose.
  cbn [REACT_APP_NAME REACT_APP_DEFAULT_INSTANCE hasMultipleInstances
       REACT_APP_LOCK_TO_DEFAULT_INSTANCE REACT_APP_INSTANCE_SELECTION_MODE].
  intros ->. rewrite occurrences_trim by (destruct mode; closed).
  eapply Nat.le_trans; [|apply occurrences_dedent_tail; destruct mode; closed].
  destruct lock, mode; vm_compute; lia.
Qed.

Lemma kube_mode c :
  hasMultipleInstances c = true ->
  exists k,
    (k <= 2)%nat /\
    (1 <= occurrences (kube_mode_entry k (REACT_APP_INSTANCE_SELECTION_MODE c))
            (getKube c))%nat.
Proof.
  destruct c as [n raw lock mode multi]. unfold getKube, dedent, kube_mode_entry.
  cbn [REACT_APP_NAME REACT_APP_DEFAULT_INSTANCE hasMultipleInstances
       REACT_APP_LOCK_TO_DEFAULT_INSTANCE REACT_APP_INSTANCE_SELECTION_MODE].
  intros ->.
  match goal with |- context [interpolate [?r0; ?r1; ?r2; ?r3; ?r4] [?a; ?b; ?l; ?m]] =>
    destruct (interpolate_tail r0 r1 r2 r3 r4 a b l m ltac:(closed)) as (X0 & ->);
    set (T := tail_text r2 r3 r4 l m)
  end.
  apply (two_lines_artifact X0 (firstn 88 T)
           (skipn (159 + length (mode_value mode)) T) 16 2);
    [lia|destruct mode; closed..|].
  destruct lock, mode; closed.
Qed.

End EntryFacts.

(** ** The validator *)

Module ValidatorFacts.
Import Occ.

Section AnyConstructor.

Variable URL_new : jstring -> completion URL.

(** The loop either returns [true] or throws; it never returns [false]. *)
Lemma check_instances_outcome instances :
  check_instances URL_new instances = Return true \/
  exists e, check_instances URL_new instances = Throw e.
Proof.
  induction instances as [|i rest IH]; [left; reflexivity|].
  cbn [check_instances]. destruct (URL_new i) as [url|e]; [|right; eauto].
  destruct (1 <? length (pathname url))%nat; [right; eauto|exact IH].
Qed.

Lemma check_instances_true instances :
  check_instances URL_new instances = Return true <->
  forallb (accepted_by_loop URL_new) instances = true.
Proof.
  induction instances as [|i rest IH]; [split; reflexivity|].
  cbn [check_instances forallb]. unfold accepted_by_loop at 1.
  destruct (URL_new i) as [url|e]; [|split; discriminate].
  rewrite Nat.ltb_antisym.
  destruct (length (pathname url) <=? 1)%nat; cbn [negb andb];
    [exact IH|split; discriminate].
Qed.

Lemma defaultInstanceValid_true raw :
  defaultInstanceValid URL_new raw = true <->
  forallb (accepted_by_loop URL_new) (split COMMA raw) = true.
Proof.
  unfold defaultInstanceValid, validateValue, defaultInstance_validator.
  rewrite <- check_instances_true.
  destruct (check_instances_outcome (split COMMA raw)) as [H|[e H]];
    rewrite H; split; congruence.
Qed.

Lemma accepted_by_loop_spec instance :
  accepted_by_loop URL_new instance = true <->
  exists url, URL_new instance = Return url /\ (length (pathname url) <= 1)%nat.
Proof.
  unfold accepted_by_loop. destruct (URL_new instance) as [url|e].
  - rewrite Nat.leb_le. split; [eauto|]. intros (u & [= <-] & H). exact H.
  - split; [discriminate|]. intros (u & H & _). discriminate.
Qed.

End AnyConstructor.

(** *** Paths that are no more than the root *)




(** In the reference model every path that is not opaque is serialised
    segment by segment, each behind a separator. *)
Lemma serialize_path_slash scheme host port path :
  slash_path (WHATWG.mkURL scheme host port path) = true.
Proof.
  unfold slash_path, WHATWG.mkURL, WHATWG.serialize_path. cbn [pathname].
  destruct path as [|segment rest]; reflexivity.
Qed.

Lemma URL_new_slash_path input url :
  WHATWG.URL_new input = Return url -> opaque_path url = false ->
  slash_path url = true.
Proof.
  unfold WHATWG.URL_new, WHATWG.basic_URL_parser.
  destruct (WHATWG.parse_scheme _) as [[sc rest]|]; [|discriminate].
  assert (G : forall o : option URL,
    (forall u, o = Some u -> opaque_path u = false -> slash_path u = true) ->
    match o with
    | Some u => Return u
    | None => Throw (TypeError "Invalid URL")
    end = Return url ->
    opaque_path url = false -> slash_path url = true).
  { intros [u|] H; [|discriminate]. intros [= <-]. apply H. reflexivity. }
  apply G. intros u.
  destruct (same sc (js "file")); [|destruct (WHATWG.is_special sc)].
  - unfold WHATWG.parse_file.
    repeat match goal with
    | |- context [match ?x with _ => _ end] => destruct x
    | |- context [if ?x then _ else _] => destruct x
    end; intros [= <-] _; try apply serialize_path_slash.
  - unfold WHATWG.parse_special. cbv zeta.
    destruct (WHATWG.parse_authority _ _ _) as [[h p]|]; [|discriminate].
    intros [= <-] _. apply serialize_path_slash.
  - unfold WHATWG.parse_other.
    repeat match goal with
    | |- context [match ?x with _ => _ end] => destruct x
    end; intros [= <-] Ho; try apply serialize_path_slash; try discriminate.
Qed.

End ValidatorFacts.

(** ** The share link *)

Module ShareLinkFacts.
Import Occ TwoLines SearchParams.

Lemma hex_digit_plain n : WHATWG.hex_digit n <> AMP /\ WHATWG.hex_digit n <> EQUALS.
Proof.
  unfold WHATWG.hex_digit, AMP, EQUALS.
  destruct (N.ltb_spec n 10); split; lia.
Qed.

Lemma encode_byte_plain b c :
  In c (encode_byte b) -> c <> AMP /\ c <> EQUALS.
Proof.
  unfold encode_byte. destruct (N.eqb_spec b 32).
  - intros [<-|[]]. split; discriminate.
  - destruct (urlencoded_set b) eqn:E.
    + unfold WHATWG.percent_encode_byte.
      intros [<-|[<-|[<-|[]]]]; try apply hex_digit_plain. split; discriminate.
    + intros [<-|[]]. unfold urlencoded_set in E. apply negb_false_iff in E.
      unfold AMP, EQUALS. split; intros ->; discriminate.
Qed.

(** The encoding of a value holds neither [&] nor [=]. *)
Lemma urlencode_plain s c : In c (urlencode s) -> c <> AMP /\ c <> EQUALS.
Proof.
  unfold urlencode. intros H. apply in_flat_map in H as (cp & _ & H).
  apply in_flat_map in H as (b & _ & H). exact (encode_byte_plain b c H).
Qed.

Lemma absent_forall c s : (forall x, In x s -> x <> c) -> absent c s = true.
Proof.
  intros H. unfold absent. apply forallb_forall. intros x Hx.
  apply negb_true_iff. apply N.eqb_neq. auto.
Qed.

Lemma absent_cons c x s : absent c (x :: s) = negb (x =? c) && absent c s.
Proof. reflexivity. Qed.

Lemma urlencode_absent_AMP s : absent AMP (urlencode s) = true.
Proof. apply absent_forall. intros x Hx. apply (urlencode_plain s x Hx). Qed.

Lemma urlencode_absent_EQUALS s : absent EQUALS (urlencode s) = true.
Proof. apply absent_forall. intros x Hx. apply (urlencode_plain s x Hx). Qed.


Lemma field_value_app key v :
  absent EQUALS key = true -> field_value (key ++ EQUALS :: v) = v.
Proof.
  unfold field_value. induction key as [|k key IH]; intros H.
  - simpl. reflexivity.
  - simpl in H. apply andb_prop in H as [Hk H].
    simpl. rewrite Hk. exact (IH H).
Qed.

Lemma demoParams_fields s : demoParams s = join [AMP] (link_fields s).
Proof.
  unfold demoParams, link_fields, toString, empty.
  destruct s as [t lock n raw mode]. cbn [name defaultInstance
    lockToDefaultInstance instanceSelectionMode].
  cbn [set].
  change (same (js "REACT_APP_NAME") (js "REACT_APP_DEFAULT_INSTANCE")) with false.
  cbn [set].
  change (same (js "REACT_APP_NAME") (js "REACT_APP_LOCK_TO_DEFAULT_INSTANCE"))
    with false.
  change (same (js "REACT_APP_DEFAULT_INSTANCE")
            (js "REACT_APP_LOCK_TO_DEFAULT_INSTANCE")) with false.
  cbn [set].
  change (same (js "REACT_APP_NAME") (js "REACT_APP_INSTANCE_SELECTION_MODE"))
    with false.
  change (same (js "REACT_APP_DEFAULT_INSTANCE")
            (js "REACT_APP_INSTANCE_SELECTION_MODE")) with false.
  change (same (js "REACT_APP_LOCK_TO_DEFAULT_INSTANCE")
            (js "REACT_APP_INSTANCE_SELECTION_MODE")) with false.
  cbn [set map]. unfold serialize_pair. cbn [fst snd app].
  change (urlencode (js "REACT_APP_NAME")) with (js "REACT_APP_NAME").
  change (urlencode (js "REACT_APP_DEFAULT_INSTANCE"))
    with (js "REACT_APP_DEFAULT_INSTANCE").
  change (urlencode (js "REACT_APP_LOCK_TO_DEFAULT_INSTANCE"))
    with (js "REACT_APP_LOCK_TO_DEFAULT_INSTANCE").
  change (urlencode (js "REACT_APP_INSTANCE_SELECTION_MODE"))
    with (js "REACT_APP_INSTANCE_SELECTION_MODE").
  replace (urlencode (if lock then js "1" else js "0"))
    with (if lock then js "1" else js "0") by (destruct lock; reflexivity).
  replace (urlencode (mode_value mode)) with (mode_value mode)
    by (destruct mode; reflexivity).
  reflexivity.
Qed.

Lemma split_join c fields :
  fields <> [] -> forallb (absent c) fields = true ->
  split c (join [c] fields) = fields.
Proof.
  induction fields as [|x l IH]; [congruence|]. intros _ H.
  cbn [forallb] in H. apply andb_prop in H as [Hx H].
  destruct l as [|y l].
  - simpl. apply split_absent. exact Hx.
  - rewrite join_cons by discriminate.
    change (x ++ [c] ++ join [c] (y :: l)) with (x ++ c :: join [c] (y :: l)).
    rewrite split_app_eq, (split_absent c x Hx), IH by (discriminate || assumption).
    reflexivity.
Qed.

Lemma split_fields s : split AMP (demoParams s) = link_fields s.
Proof.
  rewrite demoParams_fields. apply split_join; [discriminate|].
  unfold link_fields. cbn [forallb].
  rewrite !absent_app, !absent_cons, !urlencode_absent_AMP.
  destruct (lockToDefaultInstance s), (instanceSelectionMode s); reflexivity.
Qed.

End ShareLinkFacts.

(** * The claims of the specification *)

Import Occ DedentFacts TemplateFacts TwoLines EntryFacts SelectionMode.
Import ValidatorFacts ShareLinkFacts SearchParams.

(** ** Validator *)




(** Claim C4: [validateValue] turns every exception of its callback into
    [false], and the endpoint validator either sees its callback return
    [true] or sees it throw, the [TypeError] of the constructor or the
    [Error] of the path check, and then answers [false]: its result is a
    boolean for every input and every constructor. *)
Theorem validator_never_throws
  (URL_new : jstring -> completion URL) (raw : jstring) :
  (forall (T : Type) (value : T) (e : exn),
     validateValue value (fun _ => Throw e) = false) /\
  ((defaultInstance_validator URL_new raw = Return true /\
    defaultInstanceValid URL_new raw = true) \/
   (exists e, defaultInstance_validator URL_new raw = Throw e /\
              defaultInstanceValid URL_new raw = false)).
Proof.
  split; [reflexivity|].
  unfold defaultInstanceValid, validateValue, defaultInstance_validator.
  destruct (check_instances_outcome URL_new (split COMMA raw)) as [H|[e H]];
    rewrite H; [left; auto|right; eauto].
Qed.

(** A segment that is parsed into a URL whose [pathname] is longer than
    one character invalidates the raw string. *)
Lemma path_segment_invalidates
  (URL_new : jstring -> completion URL) (raw segment : jstring) (url : URL) :
  In segment (split COMMA raw) ->
  URL_new segment = Return url ->
  (1 < length (pathname url))%nat ->
  defaultInstanceValid URL_new raw = false.
Proof.
  intros Hin Hurl Hpath.
  destruct (defaultInstanceValid URL_new raw) eqn:E; [|reflexivity].
  apply defaultInstanceValid_true in E.
  rewrite forallb_forall in E. specialize (E segment Hin).
  apply accepted_by_loop_spec in E as (u & Hu & Hle).
  rewrite Hurl in Hu. injection Hu as <-. lia.
Qed.

(** Claim C5 on the code: the loop compares the length of the [pathname]
    with one instead of comparing the [pathname] with the root.  The
    constructor parses [a:b] into a URL whose path is the opaque path [b],
    which is not the root, and the validator accepts it, alone or next to a
    bare origin, as it accepts [mailto:x]; one more character, or a path
    behind an origin, and the loop throws its error. *)
Theorem one_character_path_is_accepted :
  WHATWG.URL_new (js "a:b") =
    Return {| scheme := js "a"; host := None; port := None;
              opaque_path := true; path := [js "b"]; pathname := js "b" |} /\
  root_only_URL WHATWG.URL_new (js "a:b") = false /\
  defaultInstanceValid WHATWG.URL_new (js "a:b") = true /\
  defaultInstanceValid WHATWG.URL_new (js "mailto:x") = true /\
  defaultInstanceValid WHATWG.URL_new (js "https://lemmy.world,a:b") = true /\
  validate_as_specified WHATWG.URL_new (js "https://lemmy.world,a:b") = false /\
  defaultInstance_validator WHATWG.URL_new (js "a:bc") =
    Throw (Error "no pathname allowed") /\
  defaultInstance_validator WHATWG.URL_new (js "https://a.com,https://b.com/x") =
    Throw (Error "no pathname allowed").
Proof. repeat apply conj; vm_compute; reflexivity. Qed.

(** Claim C6: a raw string without comma that the constructor parses into a
    URL whose [pathname] is at most the root separator is valid. *)
Theorem single_root_only_URL_is_valid
  (URL_new : jstring -> completion URL) (raw : jstring) (url : URL) :
  absent COMMA raw = true ->
  URL_new raw = Return url ->
  (length (pathname url) <= 1)%nat ->
  defaultInstanceValid URL_new raw = true.
Proof.
  intros Hc Hurl Hpath. apply defaultInstanceValid_true.
  rewrite (split_absent COMMA raw Hc). cbn [forallb].
  rewrite andb_true_r. apply accepted_by_loop_spec. eauto.
Qed.

Lemma single_root_only_URL_is_valid_witness :
  defaultInstanceValid WHATWG.URL_new (js "https://lemmy.world") = true.
Proof.
  apply (single_root_only_URL_is_valid WHATWG.URL_new (js "https://lemmy.world")
           (WHATWG.mkURL (js "https") (Some (js "lemmy.world")) None [[]])).
  - vm_compute. reflexivity.
  - vm_compute. reflexivity.
  - vm_compute. lia.
Defined.

(** ** Renderers *)

Lemma split_length_sep c s : In c s -> (2 <= length (split c s))%nat.
Proof.
  induction s as [|x r IH]; [intros []|].
  intros H. cbn [split]. destruct (N.eqb_spec x c) as [->|Hne].
  - pose proof (split_nonempty c r). destruct (split c r); [congruence|simpl; lia].
  - destruct H as [->|H]; [congruence|]. specialize (IH H).
    destruct (split c r) as [|h [|h2 t]]; simpl in *; lia.
Qed.

(** Claim C2, as stated, fails: a display name may itself hold the token,
    and then every artifact of a one-endpoint configuration holds it. *)
Lemma selection_mode_token_from_the_name :
  length (endpoints (defaultInstance named_like_the_key)) = 1%nat /\
  occurrences SELECTION_MODE_KEY
    (getDockerCommand (App.config named_like_the_key)) = 1%nat /\
  occurrences SELECTION_MODE_KEY
    (getDockerfile (App.config named_like_the_key)) = 1%nat /\
  occurrences SELECTION_MODE_KEY
    (getCompose (App.config named_like_the_key)) = 1%nat /\
  occurrences SELECTION_MODE_KEY
    (getKube (App.config named_like_the_key)) = 1%nat.
Proof. repeat apply conj; vm_compute; reflexivity. Qed.

(** Claim C2 (amended): for settings whose display name and raw endpoints
    string hold no backslash and do not themselves hold the text
    REACT_APP_INSTANCE_SELECTION_MODE, the output of each of the four
    renderers holds the token nowhere when there is exactly one endpoint,
    and exactly once when there are two or more.  Values with a backslash
    are left out because of the escapes that later releases of the tag
    rewrite in the finished text. *)
Theorem selection_mode_conditional_emission (s : Store) (t : ConfigType) :
  absent BS (name s) = true ->
  absent BS (defaultInstance s) = true ->
  occurrences SELECTION_MODE_KEY (name s) = 0%nat ->
  occurrences SELECTION_MODE_KEY (defaultInstance s) = 0%nat ->
  (length (endpoints (defaultInstance s)) = 1%nat ->
   occurrences SELECTION_MODE_KEY (App.render t (App.config s)) = 0%nat) /\
  ((2 <= length (endpoints (defaultInstance s)))%nat ->
   occurrences SELECTION_MODE_KEY (App.render t (App.config s)) = 1%nat).
Proof.
  intros _ _ Hn Hi.
  pose proof (token_count (App.config s) t Hn Hi) as H.
  cbn [App.config hasMultipleInstances] in H.
  rewrite hasMultipleInstances_endpoints in H.
  split; intros Hlen; rewrite H.
  - rewrite Hlen. reflexivity.
  - destruct (Nat.ltb_spec 1 (length (endpoints (defaultInstance s))));
      [reflexivity|lia].
Qed.

Lemma selection_mode_conditional_emission_witness :
  occurrences SELECTION_MODE_KEY (App.render KUBERNETES (App.config acme)) = 1%nat /\
  occurrences SELECTION_MODE_KEY
    (App.render DOCKER_COMMAND (App.config initialStore)) = 0%nat.
Proof.
  split.
  - apply (selection_mode_conditional_emission acme KUBERNETES);
      vm_compute; (reflexivity || lia).
  - apply (selection_mode_conditional_emission initialStore DOCKER_COMMAND);
      vm_compute; reflexivity.
Defined.



(** Claim C8 on the code: for the settings Acme, https://a.com and
    https://b.com, lock set, default_random, the manifest holds the NodePort
    service, port 80 mapped to nodePort 30080 and the entry value
    "default_random", but no line of it is a document marker: the three
    hyphens are indented by two columns, as is every line but the first, so
    the text is not two documents.  With one endpoint the marker is in the
    first column. *)
Theorem kube_delimiter_indented_with_two_endpoints :
  let manifest := getKube (App.config acme) in
  document_markers manifest = [] /\
  existsb (same (js "  ---")) (split NL manifest) = true /\
  occurrences (js "---") manifest = 1%nat /\
  hd [] (split NL manifest) = js "apiVersion: apps/v1" /\
  existsb (same (js "  kind: Deployment")) (split NL manifest) = true /\
  existsb (same (js "  kind: Service")) (split NL manifest) = true /\
  includes (js "type: NodePort") manifest = true /\
  includes (js "targetPort: 80") manifest = true /\
  includes (js "nodePort: 30080") manifest = true /\
  includes (js "value: " ++ quoted (js "default_random")) manifest = true /\
  document_markers (getKube (App.config acme_single)) = [js "---"].
Proof. cbv zeta. repeat apply conj; vm_compute; reflexivity. Qed.

(** Claim C9: the flag handed to the renderers is the number of
    comma-separated segments of the raw string compared with one, empty
    segments counted, so it is set exactly when the raw string holds a
    comma; and when the raw string holds a comma and only one endpoint that
    is not empty, each of the four renderers emits the selection-mode
    entry. *)
Theorem lone_endpoint_with_comma_emits_selection_mode (s : Store) :
  let c := App.config s in
  let mode := instanceSelectionMode s in
  hasMultipleInstances c = (1 <? length (split COMMA (defaultInstance s)))%nat /\
  (hasMultipleInstances c = true <-> In COMMA (defaultInstance s)) /\
  (In COMMA (defaultInstance s) ->
   length (configured_endpoints (defaultInstance s)) = 1%nat ->
   (1 <= occurrences (command_mode_entry mode) (getDockerCommand c))%nat /\
   (1 <= occurrences (dockerfile_mode_entry mode) (getDockerfile c))%nat /\
   (1 <= occurrences (compose_mode_entry mode) (getCompose c))%nat /\
   (exists k, (k <= 2)%nat /\
              (1 <= occurrences (kube_mode_entry k mode) (getKube c))%nat)).
Proof.
  cbv zeta.
  assert (Hflag : In COMMA (defaultInstance s) ->
                  hasMultipleInstances (App.config s) = true).
  { intros Hcomma. cbn [App.config hasMultipleInstances].
    unfold App.hasMultipleInstances. apply Nat.ltb_lt.
    pose proof (split_length_sep COMMA (defaultInstance s) Hcomma). lia. }
  split; [reflexivity|split; [split; [|exact Hflag]|]].
  - cbn [App.config hasMultipleInstances]. unfold App.hasMultipleInstances.
    destruct (absent COMMA (defaultInstance s)) eqn:E.
    + rewrite (split_absent COMMA _ E). discriminate.
    + intros _.
      destruct (in_dec N.eq_dec COMMA (defaultInstance s)) as [Hin|Hout];
        [exact Hin|].
      assert (Ha : absent COMMA (defaultInstance s) = true); [|congruence].
      apply forallb_forall. intros x Hx. apply negb_true_iff, N.eqb_neq.
      intros ->. exact (Hout Hx).
  - intros Hcomma _. specialize (Hflag Hcomma). repeat apply conj.
    + exact (command_mode (App.config s) Hflag).
    + exact (dockerfile_mode (App.config s) Hflag).
    + exact (compose_mode (App.config s) Hflag).
    + exact (kube_mode (App.config s) Hflag).
Qed.

Lemma lone_endpoint_with_comma_emits_selection_mode_witness :
  configured_endpoints (defaultInstance trailing_comma) = [js "https://a.com"] /\
  hasMultipleInstances (App.config trailing_comma) = true /\
  hasMultipleInstances (App.config initialStore) = false /\
  (1 <= occurrences (command_mode_entry DEFAULT_FIRST)
          (getDockerCommand (App.config trailing_comma)))%nat.
Proof.
  split; [vm_compute; reflexivity|].
  assert (Hcomma : In COMMA (defaultInstance trailing_comma)).
  { vm_compute. do 13 right. left. reflexivity. }
  assert (Hone : length (configured_endpoints (defaultInstance trailing_comma)) = 1%nat).
  { vm_compute. reflexivity. }
  pose proof (lone_endpoint_with_comma_emits_selection_mode trailing_comma) as H.
  cbv zeta in H. destruct H as (_ & Hiff & Hemit).
  destruct (Hemit Hcomma Hone) as (Hd & _).
  split; [exact (proj2 Hiff Hcomma)|split; [vm_compute; reflexivity|exact Hd]].
Defined.

(** ** Share link *)


(** Claim C10: the link carries the display name and the raw endpoints
    string as they are, percent-encoded but neither trimmed nor re-joined;
    for the name " Blorp " and the endpoints "https://a.com, https://b.com"
    the two values of the link differ from the encodings of the trimmed
    values, while every renderer embeds the trimmed name and the re-joined
    endpoints and not the padded ones. *)
Theorem share_link_keeps_raw_values :
  (forall s,
     field_value (nth 0 (split AMP (demoParams s)) []) = urlencode (name s) /\
     field_value (nth 1 (split AMP (demoParams s)) []) =
       urlencode (defaultInstance s)) /\
  demoParams padded =
    js "REACT_APP_NAME=+Blorp+&REACT_APP_DEFAULT_INSTANCE=https%3A%2F%2Fa.com%2C+https%3A%2F%2Fb.com&REACT_APP_LOCK_TO_DEFAULT_INSTANCE=0&REACT_APP_INSTANCE_SELECTION_MODE=default_first" /\
  urlencode (name padded) <> urlencode (trim (name padded)) /\
  urlencode (defaultInstance padded) <>
    urlencode (instances_of (defaultInstance padded)) /\
  (forall t,
     let artifact := App.render t (App.config padded) in
     occurrences (quoted (js "Blorp")) artifact = 1%nat /\
     occurrences (quoted (js "https://a.com,https://b.com")) artifact = 1%nat /\
     occurrences (quoted (js " Blorp ")) artifact = 0%nat /\
     occurrences (quoted (js "https://a.com, https://b.com")) artifact = 0%nat).
Proof.
  split; [|split; [|split; [|split]]].
  - intros s. rewrite split_fields. unfold link_fields. cbn [nth].
    rewrite !field_value_app by reflexivity. split; reflexivity.
  - vm_compute. reflexivity.
  - vm_compute. discriminate.
  - vm_compute. discriminate.
  - intros t. cbv zeta. destruct t; repeat apply conj; vm_compute; reflexivity.
Qed.

(** * Further properties of the engine *)

(** ** The validator, segment by segment *)

Module ValidatorMore.
Import Occ ValidatorFacts.

Section AnyConstructor.

Variable URL_new : jstring -> completion URL.

Lemma defaultInstanceValid_forallb raw :
  defaultInstanceValid URL_new raw =
  forallb (accepted_by_loop URL_new) (split COMMA raw).
Proof.
  pose proof (defaultInstanceValid_true URL_new raw) as H.
  destruct (defaultInstanceValid URL_new raw),
           (forallb (accepted_by_loop URL_new) (split COMMA raw));
    try reflexivity.
  - symmetry. apply H. reflexivity.
  - apply H. reflexivity.
Qed.

(** Property X1: validation distributes over the comma: a list is valid
    exactly when the part before a comma and the part after it are. *)
Theorem validation_splits_at_comma a b :
  defaultInstanceValid URL_new (a ++ COMMA :: b) =
  defaultInstanceValid URL_new a && defaultInstanceValid URL_new b.
Proof.
  rewrite !defaultInstanceValid_forallb, split_app_eq, forallb_app. reflexivity.
Qed.

Lemma empty_string_invalid :
  (exists e, URL_new [] = Throw e) -> defaultInstanceValid URL_new [] = false.
Proof.
  intros [e He]. rewrite defaultInstanceValid_forallb. cbn [split forallb].
  unfold accepted_by_loop. rewrite He. reflexivity.
Qed.

(** Property X2: with a constructor that rejects the empty string, a leading
    comma, a trailing comma and two commas in a row each make the input
    invalid, whatever the other segments are. *)
Theorem stray_comma_invalidates a b :
  (exists e, URL_new [] = Throw e) ->
  defaultInstanceValid URL_new (COMMA :: a) = false /\
  defaultInstanceValid URL_new (a ++ [COMMA]) = false /\
  defaultInstanceValid URL_new (a ++ COMMA :: COMMA :: b) = false.
Proof.
  intros H. pose proof (empty_string_invalid H) as E.
  assert (Happ : forall x y, defaultInstanceValid URL_new (x ++ COMMA :: y) =
                 defaultInstanceValid URL_new x && defaultInstanceValid URL_new y).
  { intros x y.
    rewrite !defaultInstanceValid_forallb, split_app_eq, forallb_app.
    reflexivity. }
  repeat apply conj.
  - change (COMMA :: a) with ([] ++ COMMA :: a).
    rewrite Happ, E. reflexivity.
  - rewrite Happ, E. apply andb_false_r.
  - rewrite Happ.
    change (COMMA :: b) with ([] ++ COMMA :: b).
    rewrite Happ, E. apply andb_false_r.
Qed.

End AnyConstructor.

End ValidatorMore.

Lemma stray_comma_invalidates_witness :
  defaultInstanceValid WHATWG.URL_new (js ",https://a.com") = false /\
  defaultInstanceValid WHATWG.URL_new (js "https://a.com,") = false /\
  defaultInstanceValid WHATWG.URL_new (js "https://a.com,,https://b.com") = false.
Proof.
  apply (ValidatorMore.stray_comma_invalidates WHATWG.URL_new
           (js "https://a.com") (js "https://b.com")).
  exists (TypeError "Invalid URL"). vm_compute. reflexivity.
Defined.

(** ** The derived flag and the form's conditions *)

Module FlagFacts.
Import Occ.

Lemma length_split c s :
  length (split c s) = S (length (filter (fun x => x =? c) s)).
Proof.
  induction s as [|x r IH]; [reflexivity|].
  cbn [split filter]. destruct (x =? c).
  - cbn [length]. rewrite IH. reflexivity.
  - pose proof (split_nonempty c r) as Hne.
    destruct (split c r) as [|h t]; [congruence|]. exact IH.
Qed.

Lemma no_occurrence_absent c s :
  length (filter (fun x => x =? c) s) = 0%nat <-> absent c s = true.
Proof.
  unfold absent. induction s as [|x r IH]; [split; reflexivity|].
  cbn [filter forallb]. destruct (x =? c); cbn [negb andb length].
  - split; discriminate.
  - exact IH.
Qed.

Lemma In_absent c s : In c s <-> absent c s = false.
Proof.
  unfold absent. induction s as [|x r IH]; [split; [intros []|discriminate]|].
  cbn [forallb In]. destruct (N.eqb_spec x c) as [->|Hne]; cbn [negb andb].
  - split; [reflexivity|]. intros _. left. reflexivity.
  - rewrite <- IH. split.
    + intros [Hx|Hx]; [congruence|exact Hx].
    + intros Hx. right. exact Hx.
Qed.

(** Property X3: the number of endpoints is the number of commas plus one,
    so the flag is set, and the selection-mode box not dimmed, exactly when
    the raw string holds a comma. *)
Theorem endpoints_counted_by_commas (s : Store) :
  length (endpoints (defaultInstance s)) = S (commas (defaultInstance s)) /\
  (App.hasMultipleInstances s = true <-> In COMMA (defaultInstance s)) /\
  selectionModeDimmed s = absent COMMA (defaultInstance s).
Proof.
  unfold endpoints, commas, count_char, selectionModeDimmed, App.hasMultipleInstances.
  rewrite length_map, length_split.
  pose proof (no_occurrence_absent COMMA (defaultInstance s)) as H.
  pose proof (In_absent COMMA (defaultInstance s)) as Hin.
  destruct (absent COMMA (defaultInstance s)) eqn:E.
  - rewrite (proj2 H eq_refl). split; [reflexivity|split; [|reflexivity]].
    rewrite Hin. split; discriminate.
  - destruct (length (filter (fun x => x =? COMMA) (defaultInstance s))) eqn:El.
    + assert (false = true) by (apply H; reflexivity). discriminate.
    + split; [reflexivity|split; [|reflexivity]].
      rewrite Hin. split; reflexivity.
Qed.

Lemma dropWhile_nil p s : dropWhile p s = [] <-> forallb p s = true.
Proof.
  induction s as [|x r IH]; [split; reflexivity|].
  cbn [dropWhile forallb]. destruct (p x); cbn [andb]; [exact IH|].
  split; discriminate.
Qed.

Lemma dropWhile_head p s h r : dropWhile p s = h :: r -> p h = false.
Proof.
  induction s as [|x t IH]; [discriminate|].
  cbn [dropWhile]. destruct (p x) eqn:E; [exact IH|].
  intros [= <- _]. exact E.
Qed.

Lemma trim_nil s : trim s = [] <-> forallb is_ws s = true.
Proof.
  unfold trim, trimEnd, trimStart. split.
  - intros H. apply dropWhile_nil.
    destruct (dropWhile is_ws s) as [|h r] eqn:E; [reflexivity|].
    apply (f_equal (@rev code_unit)) in H. rewrite rev_involutive in H.
    cbn [rev] in H. apply dropWhile_nil in H.
    rewrite forallb_forall in H.
    assert (Hh : is_ws h = true).
    { apply H. apply in_or_app. right. left. reflexivity. }
    rewrite (dropWhile_head is_ws s h r E) in Hh. discriminate.
  - intros H. apply dropWhile_nil in H. rewrite H. reflexivity.
Qed.

(** Property X4: the name box is marked as missing exactly when the name
    consists of white space only (the empty name included). *)
Theorem name_missing_iff_blank (s : Store) :
  nameMissing s = true <-> forallb is_ws (name s) = true.
Proof.
  unfold nameMissing. rewrite <- trim_nil, Nat.eqb_eq.
  destruct (trim (name s)); split; (reflexivity || discriminate).
Qed.

End FlagFacts.

(** ** What the renderers read of the settings *)

Module RendererMore.
Import Occ FlagFacts ShareLinkFacts.

Lemma trim_head s h r : trim s = h :: r -> is_ws h = false.
Proof.
  unfold trim. intros H.
  destruct (trimEnd_spec (trimStart s)) as (w & E & _).
  rewrite H in E. apply (dropWhile_head is_ws s h (r ++ w)). exact E.
Qed.

Lemma trimEnd_idempotent s : trimEnd (trimEnd s) = trimEnd s.
Proof.
  unfold trimEnd. rewrite rev_involutive.
  destruct (dropWhile is_ws (rev s)) as [|h r] eqn:E; [reflexivity|].
  cbn [dropWhile]. rewrite (dropWhile_head is_ws (rev s) h r E). reflexivity.
Qed.

(** [trim] is idempotent. *)
Lemma trim_idempotent s : trim (trim s) = trim s.
Proof.
  destruct (trim s) as [|h r] eqn:E; [reflexivity|].
  pose proof (trim_head s h r E) as Hh.
  unfold trim at 1. unfold trimStart. cbn [dropWhile]. rewrite Hh.
  rewrite <- E. unfold trim. apply trimEnd_idempotent.
Qed.

Lemma split_segments_absent c s seg :
  In seg (split c s) -> absent c seg = true.
Proof.
  revert seg. induction s as [|x r IH]; intros seg.
  - intros [<-|[]]. reflexivity.
  - cbn [split]. destruct (N.eqb_spec x c) as [->|Hne].
    + intros [<-|H]; [reflexivity|auto].
    + pose proof (split_nonempty c r) as Hs.
      destruct (split c r) as [|h t]; [congruence|].
      intros [<-|H].
      * rewrite absent_cons. apply N.eqb_neq in Hne. rewrite Hne.
        apply IH. left. reflexivity.
      * apply IH. right. exact H.
Qed.

Lemma absent_trim c s : absent c s = true -> absent c (trim s) = true.
Proof.
  intros H. unfold trim.
  destruct (trimEnd_spec (trimStart s)) as (w & E & _).
  rewrite <- (takeWhile_dropWhile is_ws s) in H. fold (trimStart s) in H.
  rewrite E in H. rewrite !absent_app in H.
  apply andb_prop in H as [_ H]. apply andb_prop in H as [H _]. exact H.
Qed.

Lemma endpoints_absent raw e : In e (endpoints raw) -> absent COMMA e = true.
Proof.
  unfold endpoints. intros H. apply in_map_iff in H as (seg & <- & Hseg).
  apply absent_trim. exact (split_segments_absent COMMA raw seg Hseg).
Qed.

(** Splitting the re-joined endpoints gives the endpoints back. *)
Lemma split_instances_of raw : split COMMA (instances_of raw) = endpoints raw.
Proof.
  unfold instances_of. apply split_join.
  - unfold endpoints. pose proof (split_nonempty COMMA raw).
    destruct (split COMMA raw); [congruence|discriminate].
  - apply forallb_forall. apply endpoints_absent.
Qed.

Lemma endpoints_instances_of raw : endpoints (instances_of raw) = endpoints raw.
Proof.
  unfold endpoints at 1. rewrite split_instances_of. unfold endpoints.
  rewrite map_map. apply map_ext. intros seg. apply trim_idempotent.
Qed.

Lemma instances_of_idempotent raw :
  instances_of (instances_of raw) = instances_of raw.
Proof. unfold instances_of at 1. rewrite endpoints_instances_of. reflexivity. Qed.

Lemma hasMultipleInstances_normalised s :
  App.hasMultipleInstances (normalised s) = App.hasMultipleInstances s.
Proof.
  unfold App.hasMultipleInstances, normalised, settings. cbn [defaultInstance].
  rewrite split_instances_of. unfold endpoints. rewrite length_map. reflexivity.
Qed.

(** Property X5: the artifacts do not change when the name is trimmed and
    the endpoints are trimmed and re-joined beforehand: the renderers
    normalise their input, and doing it twice is doing it once. *)
Theorem artifacts_of_normalised_settings (s : Store) (t : ConfigType) :
  App.render t (App.config (normalised s)) = App.render t (App.config s) /\
  normalised (normalised s) = normalised s.
Proof.
  split.
  - unfold App.config. rewrite hasMultipleInstances_normalised.
    unfold normalised, settings. cbn [name defaultInstance lockToDefaultInstance
      instanceSelectionMode].
    destruct t; cbn [App.render];
      unfold getDockerCommand, getDockerfile, getCompose, getKube,
        DockerCommand.mode_flag, Dockerfile.mode_env, Compose.maybeMode,
        Kube.maybeMode;
      cbn [REACT_APP_NAME REACT_APP_DEFAULT_INSTANCE hasMultipleInstances
           REACT_APP_LOCK_TO_DEFAULT_INSTANCE REACT_APP_INSTANCE_SELECTION_MODE];
      rewrite trim_idempotent, instances_of_idempotent; reflexivity.
  - unfold normalised, settings. cbn [name defaultInstance lockToDefaultInstance
      instanceSelectionMode configType].
    rewrite trim_idempotent, instances_of_idempotent. reflexivity.
Qed.

(** Property X6: with a raw string without comma the artifacts are the same
    for both selection modes. *)
Theorem single_endpoint_ignores_selection_mode
  (s : Store) (mode : InstanceSelectionMode) (t : ConfigType) :
  absent COMMA (defaultInstance s) = true ->
  App.render t (App.config s) =
  App.render t (App.config (settings (name s) (defaultInstance s)
                              (lockToDefaultInstance s) mode (configType s))).
Proof.
  intros H. unfold App.config, App.hasMultipleInstances, settings.
  cbn [name defaultInstance lockToDefaultInstance instanceSelectionMode].
  rewrite (split_absent COMMA _ H). cbn [length Nat.ltb Nat.leb].
  destruct t; reflexivity.
Qed.

End RendererMore.

Lemma single_endpoint_ignores_selection_mode_witness :
  App.render KUBERNETES (App.config acme_single) =
  App.render KUBERNETES
    (App.config (settings (js "Acme") (js "https://a.com") true DEFAULT_FIRST
                          KUBERNETES)).
Proof.
  apply (RendererMore.single_endpoint_ignores_selection_mode acme_single
           DEFAULT_FIRST KUBERNETES).
  vm_compute. reflexivity.
Defined.

(** ** The entries for the name and the endpoints *)

Module EntryMore.
Import Occ DedentFacts TemplateFacts TwoLines EntryFacts RendererMore.

Lemma name_key_count (c : Config) (t : ConfigType) :
  occurrences NAME_KEY (App.render t c) =
  (1 + occurrences NAME_KEY (REACT_APP_NAME c) +
   occurrences NAME_KEY (REACT_APP_DEFAULT_INSTANCE c))%nat.
Proof.
  rewrite <- (occurrences_trim NAME_KEY (REACT_APP_NAME c)) by closed.
  rewrite <- (occurrences_instances_of NAME_KEY (REACT_APP_DEFAULT_INSTANCE c))
    by closed.
  destruct c as [n raw lock mode multi].
  destruct t; cbn [App.render];
    unfold getDockerCommand, getDockerfile, getCompose, getKube;
    cbn [REACT_APP_NAME REACT_APP_DEFAULT_INSTANCE hasMultipleInstances
         REACT_APP_LOCK_TO_DEFAULT_INSTANCE REACT_APP_INSTANCE_SELECTION_MODE];
    generalize (trim n) (instances_of raw); intros n' i';
    rewrite ?(occurrences_trim NAME_KEY) by closed;
    rewrite occurrences_dedent_quoted by closed;
    destruct lock, mode, multi;
    match goal with
    | |- (?a + ?x + ?b + ?y + ?d)%nat = _ =>
        let a' := eval vm_compute in a in
        let b' := eval vm_compute in b in
        let d' := eval vm_compute in d in
        change (a' + x + b' + y + d' = 1 + x + y)%nat
    end; lia.
Qed.

Lemma instance_key_count (c : Config) (t : ConfigType) :
  occurrences INSTANCE_KEY (App.render t c) =
  (1 + occurrences INSTANCE_KEY (REACT_APP_NAME c) +
   occurrences INSTANCE_KEY (REACT_APP_DEFAULT_INSTANCE c))%nat.
Proof.
  rewrite <- (occurrences_trim INSTANCE_KEY (REACT_APP_NAME c)) by closed.
  rewrite <- (occurrences_instances_of INSTANCE_KEY (REACT_APP_DEFAULT_INSTANCE c))
    by closed.
  destruct c as [n raw lock mode multi].
  destruct t; cbn [App.render];
    unfold getDockerCommand, getDockerfile, getCompose, getKube;
    cbn [REACT_APP_NAME REACT_APP_DEFAULT_INSTANCE hasMultipleInstances
         REACT_APP_LOCK_TO_DEFAULT_INSTANCE REACT_APP_INSTANCE_SELECTION_MODE];
    generalize (trim n) (instances_of raw); intros n' i';
    rewrite ?(occurrences_trim INSTANCE_KEY) by closed;
    rewrite occurrences_dedent_quoted by closed;
    destruct lock, mode, multi;
    match goal with
    | |- (?a + ?x + ?b + ?y + ?d)%nat = _ =>
        let a' := eval vm_compute in a in
        let b' := eval vm_compute in b in
        let d' := eval vm_compute in d in
        change (a' + x + b' + y + d' = 1 + x + y)%nat
    end; lia.
Qed.

(** Property X7: for a name and raw endpoints without backslash, every
    template writes the name key and the endpoints key exactly once: they
    occur in an artifact once more than in the name and the raw endpoints
    themselves, for every flag and format.  Values with a backslash are
    left out because of the escapes that later releases of the tag rewrite
    in the finished text. *)
Theorem name_and_endpoints_declared_once (c : Config) (t : ConfigType) :
  absent BS (REACT_APP_NAME c) = true ->
  absent BS (REACT_APP_DEFAULT_INSTANCE c) = true ->
  occurrences NAME_KEY (App.render t c) =
    (1 + occurrences NAME_KEY (REACT_APP_NAME c) +
     occurrences NAME_KEY (REACT_APP_DEFAULT_INSTANCE c))%nat /\
  occurrences INSTANCE_KEY (App.render t c) =
    (1 + occurrences INSTANCE_KEY (REACT_APP_NAME c) +
     occurrences INSTANCE_KEY (REACT_APP_DEFAULT_INSTANCE c))%nat.
Proof. intros _ _. split; [apply name_key_count|apply instance_key_count]. Qed.

End EntryMore.

Lemma name_and_endpoints_declared_once_witness :
  occurrences NAME_KEY (App.render KUBERNETES (App.config padded)) = 1%nat /\
  occurrences INSTANCE_KEY (App.render KUBERNETES (App.config padded)) = 1%nat.
Proof.
  apply (EntryMore.name_and_endpoints_declared_once (App.config padded)
           KUBERNETES); vm_compute; reflexivity.
Defined.

(** ** The share link, read back *)

Module ShareLinkMore.
Import Occ FlagFacts ShareLinkFacts SearchParams.

Lemma below_16 n : n < 16 -> In n (map N.of_nat (seq 0 16)).
Proof.
  intros H. rewrite <- (N2Nat.id n). apply in_map, in_seq. lia.
Qed.

Lemma hex_digit_spec n : n < 16 ->
  WHATWG.is_hex_digit (WHATWG.hex_digit n) = true /\
  WHATWG.hex_value (WHATWG.hex_digit n) = n /\
  query_safe (WHATWG.hex_digit n) = true /\
  (WHATWG.hex_digit n =? 43) = false.
Proof.
  intros H. apply below_16 in H. vm_compute in H.
  repeat (destruct H as [<-|H]; [repeat apply conj; reflexivity|]).
  destruct H.
Qed.

Lemma byte_split b : b < 256 -> b / 16 < 16 /\ b mod 16 < 16 /\
  16 * (b / 16) + b mod 16 = b.
Proof.
  intros H. repeat apply conj.
  - apply N.Div0.div_lt_upper_bound. lia.
  - apply N.mod_lt. discriminate.
  - symmetry. apply N.div_mod. discriminate.
Qed.

Lemma plain_byte b :
  urlencoded_set b = false -> query_safe b = true /\ (b =? 43) = false /\
  (b =? 37) = false.
Proof.
  unfold urlencoded_set, query_safe. intros H. apply negb_false_iff in H.
  apply orb_prop in H as [H|H].
  - rewrite H. repeat apply conj; [reflexivity| |].
    + unfold WHATWG.is_alpha, WHATWG.is_digit in H. apply N.eqb_neq. intros ->.
      discriminate.
    + unfold WHATWG.is_alpha, WHATWG.is_digit in H. apply N.eqb_neq. intros ->.
      discriminate.
  - unfold WHATWG.in_list in *. cbn [existsb] in *.
    repeat apply conj.
    + rewrite !orb_false_r in H.
      repeat (apply orb_prop in H as [H|H];
              [apply N.eqb_eq in H; subst; reflexivity|]).
      apply N.eqb_eq in H; subst; reflexivity.
    + apply N.eqb_neq. intros ->. discriminate.
    + apply N.eqb_neq. intros ->. discriminate.
Qed.

(** One encoded byte is made of safe characters and decodes to the byte. *)
Lemma encode_byte_spec b rest : b < 256 ->
  forallb query_safe (encode_byte b) = true /\
  WHATWG.percent_decode_from 0
    (map plus_to_space (encode_byte b ++ rest)) =
  b :: WHATWG.percent_decode_from 0
         (map plus_to_space rest).
Proof.
  intros Hb. unfold encode_byte. destruct (N.eqb_spec b 32) as [->|H32].
  - split; [reflexivity|]. cbn [app map].
    change (plus_to_space 43) with 32.
    cbn [WHATWG.percent_decode_from].
    destruct (map plus_to_space rest) as [|h [|l r]]; reflexivity.
  - destruct (urlencoded_set b) eqn:E.
    + destruct (byte_split b Hb) as (H1 & H2 & H3).
      destruct (hex_digit_spec _ H1) as (Ha1 & Hb1 & Hc1 & Hd1).
      destruct (hex_digit_spec _ H2) as (Ha2 & Hb2 & Hc2 & Hd2).
      unfold WHATWG.percent_encode_byte. split.
      * cbn [forallb]. rewrite Hc1, Hc2. reflexivity.
      * cbn [app map]. unfold plus_to_space at 1 2 3. rewrite Hd1, Hd2.
        change (37 =? 43) with false. cbv iota.
        cbn [WHATWG.percent_decode_from]. rewrite N.eqb_refl, Ha1, Ha2.
        cbn [andb]. rewrite Hb1, Hb2, H3. reflexivity.
    + destruct (plain_byte b E) as (Hs & H43 & H37). split.
      * cbn [forallb]. rewrite Hs. reflexivity.
      * cbn [app map]. unfold plus_to_space at 1. rewrite H43.
        cbn [WHATWG.percent_decode_from].
        rewrite H37. cbn [andb].
        destruct (map plus_to_space rest) as [|h [|l r]]; reflexivity.
Qed.

Lemma encode_bytes_spec bytes :
  forallb (fun b => b <? 256) bytes = true ->
  forallb query_safe (flat_map encode_byte bytes) = true /\
  WHATWG.percent_decode_from 0
    (map plus_to_space (flat_map encode_byte bytes)) =
  bytes.
Proof.
  induction bytes as [|b r IH]; [split; reflexivity|].
  cbn [forallb flat_map]. intros H. apply andb_prop in H as [Hb H].
  apply N.ltb_lt in Hb. destruct (IH H) as [IH1 IH2].
  destruct (encode_byte_spec b (flat_map encode_byte r) Hb) as [E1 E2].
  split.
  - rewrite forallb_app, E1, IH1. reflexivity.
  - rewrite E2, IH2. reflexivity.
Qed.

Lemma div_below a b q : a < b * q -> a / b < q.
Proof. apply N.Div0.div_lt_upper_bound. Qed.

Lemma utf8_encode_bytes cp :
  cp < 1114112 -> forallb (fun b => b <? 256) (WHATWG.utf8_encode cp) = true.
Proof.
  intros H. unfold WHATWG.utf8_encode.
  assert (M : forall x, x mod 64 < 64) by (intros x; apply N.mod_lt; discriminate).
  destruct (N.ltb_spec cp 128); [|destruct (N.ltb_spec cp 2048);
    [|destruct (N.ltb_spec cp 65536)]]; cbn [forallb]; rewrite ?andb_true_r;
    repeat (apply andb_true_intro; split); apply N.ltb_lt.
  - lia.
  - assert (cp / 64 < 32) by (apply div_below; lia). lia.
  - specialize (M cp). lia.
  - assert (cp / 4096 < 16) by (apply div_below; lia). lia.
  - specialize (M (cp / 64)). lia.
  - specialize (M cp). lia.
  - assert (cp / 262144 < 5) by (apply div_below; lia). lia.
  - specialize (M (cp / 4096)). lia.
  - specialize (M (cp / 64)). lia.
  - specialize (M cp). lia.
Qed.

Lemma scalar_values_bound s :
  well_formed s = true ->
  forallb (fun cp => cp <? 1114112) (WHATWG.scalar_values s) = true.
Proof.
  unfold well_formed.
  induction s as [| c | c d r IHr IHd] using DedentFacts.list_ind2; intros H.
  - reflexivity.
  - cbn [forallb] in H. apply andb_prop in H as [Hc _]. apply N.ltb_lt in Hc.
    cbn [WHATWG.scalar_values].
    destruct (WHATWG.is_lead_surrogate c); [reflexivity|].
    destruct (WHATWG.is_trail_surrogate c); [reflexivity|].
    cbn [forallb]. rewrite andb_true_r. apply N.ltb_lt. lia.
  - pose proof H as H'. cbn [forallb] in H'.
    apply andb_prop in H' as [Hc H']. apply andb_prop in H' as [Hd Hr].
    apply N.ltb_lt in Hc, Hd.
    change (WHATWG.scalar_values (c :: d :: r)) with
      (if WHATWG.is_lead_surrogate c
       then if WHATWG.is_trail_surrogate d
            then (65536 + (c - 55296) * 1024 + (d - 56320)) :: WHATWG.scalar_values r
            else 65533 :: WHATWG.scalar_values (d :: r)
       else if WHATWG.is_trail_surrogate c
            then 65533 :: WHATWG.scalar_values (d :: r)
            else c :: WHATWG.scalar_values (d :: r)).
    assert (IH2 : forallb (fun cp => cp <? 1114112)
                    (WHATWG.scalar_values (d :: r)) = true).
    { apply IHd. cbn [forallb]. apply andb_true_intro. split;
        [apply N.ltb_lt; exact Hd|exact Hr]. }
    destruct (WHATWG.is_lead_surrogate c) eqn:El.
    + destruct (WHATWG.is_trail_surrogate d) eqn:Et.
      * cbn [forallb]. rewrite (IHr Hr), andb_true_r. apply N.ltb_lt.
        unfold WHATWG.is_lead_surrogate in El.
        unfold WHATWG.is_trail_surrogate in Et.
        apply andb_prop in El as [E1 E2]. apply andb_prop in Et as [E3 E4].
        apply N.leb_le in E1, E2, E3, E4. lia.
      * cbn [forallb]. rewrite IH2. reflexivity.
    + destruct (WHATWG.is_trail_surrogate c).
      * cbn [forallb]. rewrite IH2. reflexivity.
      * cbn [forallb]. rewrite IH2, andb_true_r. apply N.ltb_lt. lia.
Qed.

Lemma utf8_bytes_bound s :
  well_formed s = true -> forallb (fun b => b <? 256) (utf8_bytes s) = true.
Proof.
  intros H. apply scalar_values_bound in H. unfold utf8_bytes.
  induction (WHATWG.scalar_values s) as [|cp r IH]; [reflexivity|].
  cbn [forallb flat_map] in *. apply andb_prop in H as [Hc H].
  rewrite forallb_app, (IH H), andb_true_r.
  apply utf8_encode_bytes. apply N.ltb_lt. exact Hc.
Qed.

Lemma urlencode_bytes s : urlencode s = flat_map encode_byte (utf8_bytes s).
Proof.
  unfold urlencode, utf8_bytes.
  induction (WHATWG.scalar_values s) as [|cp r IH]; [reflexivity|].
  cbn [flat_map]. rewrite flat_map_app, IH. reflexivity.
Qed.

(** A value that is encoded and read back by the standard parser is the
    UTF-8 encoding of the value, and its encoding is made of safe
    characters. *)
Lemma urlencode_round_trip v :
  well_formed v = true ->
  forallb query_safe (urlencode v) = true /\
  form_decode (urlencode v) = utf8_bytes v.
Proof.
  intros H. rewrite urlencode_bytes. unfold form_decode, WHATWG.percent_decode.
  apply encode_bytes_spec. apply utf8_bytes_bound. exact H.
Qed.

Lemma count_char_app c a b :
  count_char c (a ++ b) = (count_char c a + count_char c b)%nat.
Proof. unfold count_char. rewrite filter_app, length_app. reflexivity. Qed.

Lemma count_char_absent c s : absent c s = true -> count_char c s = 0%nat.
Proof. apply no_occurrence_absent. Qed.

Lemma demoParams_text s :
  demoParams s =
  js "REACT_APP_NAME=" ++ urlencode (name s) ++
  js "&REACT_APP_DEFAULT_INSTANCE=" ++ urlencode (defaultInstance s) ++
  js "&REACT_APP_LOCK_TO_DEFAULT_INSTANCE=" ++
  lock_literal (lockToDefaultInstance s) ++
  js "&REACT_APP_INSTANCE_SELECTION_MODE=" ++
  mode_value (instanceSelectionMode s).
Proof.
  rewrite demoParams_fields. unfold link_fields.
  rewrite (join_cons [AMP]) by discriminate.
  rewrite (join_cons [AMP]) by discriminate.
  rewrite (join_cons [AMP]) by discriminate.
  cbn [join]. unfold lock_literal.
  change (js "REACT_APP_NAME=") with (js "REACT_APP_NAME" ++ [EQUALS]).
  change (js "&REACT_APP_DEFAULT_INSTANCE=")
    with ([AMP] ++ js "REACT_APP_DEFAULT_INSTANCE" ++ [EQUALS]).
  change (js "&REACT_APP_LOCK_TO_DEFAULT_INSTANCE=")
    with ([AMP] ++ js "REACT_APP_LOCK_TO_DEFAULT_INSTANCE" ++ [EQUALS]).
  change (js "&REACT_APP_INSTANCE_SELECTION_MODE=")
    with ([AMP] ++ js "REACT_APP_INSTANCE_SELECTION_MODE" ++ [EQUALS]).
  repeat (rewrite <- ?app_assoc, <- ?app_comm_cons). reflexivity.
Qed.

(** Property X12: the query string has exactly three ampersands and four
    equals signs, whatever the settings hold, and for well-formed strings it
    consists of characters that need no further escaping. *)
Theorem share_link_needs_no_escaping (s : Store) :
  count_char AMP (demoParams s) = 3%nat /\
  count_char EQUALS (demoParams s) = 4%nat /\
  (well_formed (name s) = true -> well_formed (defaultInstance s) = true ->
   forallb query_safe (demoParams s) = true).
Proof.
  rewrite demoParams_text. repeat apply conj.
  - rewrite !count_char_app, !(count_char_absent AMP (urlencode _))
      by apply urlencode_absent_AMP.
    destruct (lockToDefaultInstance s), (instanceSelectionMode s); reflexivity.
  - rewrite !count_char_app, !(count_char_absent EQUALS (urlencode _))
      by apply urlencode_absent_EQUALS.
    destruct (lockToDefaultInstance s), (instanceSelectionMode s); reflexivity.
  - intros Hn Hi. rewrite !forallb_app.
    rewrite (proj1 (urlencode_round_trip _ Hn)),
            (proj1 (urlencode_round_trip _ Hi)).
    destruct (lockToDefaultInstance s), (instanceSelectionMode s); reflexivity.
Qed.

(** Property X13: read back with the standard parser, the four values of the
    link are the UTF-8 encodings of the name and of the raw endpoints as
    stored, the lock digit and the mode name. *)
Theorem share_link_round_trip (s : Store) :
  well_formed (name s) = true -> well_formed (defaultInstance s) = true ->
  map form_decode (map field_value (split AMP (demoParams s))) =
  [ utf8_bytes (name s); utf8_bytes (defaultInstance s);
    lock_literal (lockToDefaultInstance s);
    mode_value (instanceSelectionMode s) ].
Proof.
  intros Hn Hi. rewrite split_fields. unfold link_fields. cbn [map].
  rewrite !field_value_app by reflexivity.
  rewrite (proj2 (urlencode_round_trip _ Hn)),
          (proj2 (urlencode_round_trip _ Hi)).
  destruct (lockToDefaultInstance s), (instanceSelectionMode s); reflexivity.
Qed.

End ShareLinkMore.

Lemma share_link_needs_no_escaping_witness :
  forallb query_safe (demoParams padded) = true.
Proof.
  apply (ShareLinkMore.share_link_needs_no_escaping padded);
    vm_compute; reflexivity.
Defined.

Lemma share_link_round_trip_witness :
  map form_decode
    (map SearchParams.field_value
       (split SearchParams.AMP (demoParams padded))) =
  [ js " Blorp "; js "https://a.com, https://b.com"; js "0"; js "default_first" ].
Proof.
  apply (ShareLinkMore.share_link_round_trip padded); vm_compute; reflexivity.
Defined.

(** ** The link determines the settings *)

Module ShareLinkInjective.
Import Occ FlagFacts ShareLinkFacts SearchParams ShareLinkMore.

Lemma sextets cp :
  cp = 64 * (cp / 64) + cp mod 64 /\
  cp / 64 = 64 * (cp / 4096) + (cp / 64) mod 64 /\
  cp / 4096 = 64 * (cp / 262144) + (cp / 4096) mod 64 /\
  cp mod 64 < 64 /\ (cp / 64) mod 64 < 64 /\ (cp / 4096) mod 64 < 64.
Proof.
  assert (D : forall x, x = 64 * (x / 64) + x mod 64)
    by (intros x; apply N.div_mod; discriminate).
  assert (M : forall x, x mod 64 < 64) by (intros x; apply N.mod_lt; discriminate).
  repeat apply conj; auto.
  - rewrite (D (cp / 64)) at 1. rewrite N.Div0.div_div. reflexivity.
  - rewrite (D (cp / 4096)) at 1. rewrite N.Div0.div_div. reflexivity.
Qed.

Lemma cons_inj (x y : N) (l l' : list N) : x :: l = y :: l' -> x = y /\ l = l'.
Proof. intros E. injection E. auto. Qed.

Lemma utf8_encode_prefix_free cp1 cp2 r1 r2 :
  cp1 < 1114112 -> cp2 < 1114112 ->
  WHATWG.utf8_encode cp1 ++ r1 = WHATWG.utf8_encode cp2 ++ r2 ->
  cp1 = cp2 /\ r1 = r2.
Proof.
  intros H1 H2.
  destruct (sextets cp1) as (A1 & B1 & C1 & M1 & N1 & O1).
  destruct (sextets cp2) as (A2 & B2 & C2 & M2 & N2 & O2).
  assert (Q1 : cp1 < 2048 -> cp1 / 64 < 32) by (intros; apply div_below; lia).
  assert (Q2 : cp2 < 2048 -> cp2 / 64 < 32) by (intros; apply div_below; lia).
  assert (R1 : cp1 < 65536 -> cp1 / 4096 < 16) by (intros; apply div_below; lia).
  assert (R2 : cp2 < 65536 -> cp2 / 4096 < 16) by (intros; apply div_below; lia).
  unfold WHATWG.utf8_encode.
  intros E.
  remember (cp1 / 262144) as a1 eqn:X1. remember (cp1 / 4096) as b1 eqn:X2.
  remember (cp1 / 64) as c1 eqn:X3. remember (b1 mod 64) as b1m eqn:X4.
  remember (c1 mod 64) as c1m eqn:X5. remember (cp1 mod 64) as d1m eqn:X6.
  remember (cp2 / 262144) as a2 eqn:Y1. remember (cp2 / 4096) as b2 eqn:Y2.
  remember (cp2 / 64) as c2 eqn:Y3. remember (b2 mod 64) as b2m eqn:Y4.
  remember (c2 mod 64) as c2m eqn:Y5. remember (cp2 mod 64) as d2m eqn:Y6.
  clear X1 X2 X3 X4 X5 X6 Y1 Y2 Y3 Y4 Y5 Y6. revert E.
  destruct (N.ltb_spec cp1 128); [|destruct (N.ltb_spec cp1 2048);
    [|destruct (N.ltb_spec cp1 65536)]];
  (destruct (N.ltb_spec cp2 128); [|destruct (N.ltb_spec cp2 2048);
    [|destruct (N.ltb_spec cp2 65536)]]);
  cbn [app]; intros E;
  repeat match goal with
         | E : _ :: _ = _ :: _ |- _ => apply cons_inj in E; destruct E
         end;
  first [exfalso; lia | split; [lia|congruence]].
Qed.

Lemma utf8_injective l1 l2 :
  forallb (fun cp => cp <? 1114112) l1 = true ->
  forallb (fun cp => cp <? 1114112) l2 = true ->
  flat_map WHATWG.utf8_encode l1 = flat_map WHATWG.utf8_encode l2 -> l1 = l2.
Proof.
  revert l2. induction l1 as [|c1 r1 IH]; intros [|c2 r2] H1 H2 E.
  - reflexivity.
  - exfalso. cbn [flat_map] in E. unfold WHATWG.utf8_encode in E.
    destruct (c2 <? 128), (c2 <? 2048), (c2 <? 65536); discriminate.
  - exfalso. cbn [flat_map] in E. unfold WHATWG.utf8_encode in E.
    destruct (c1 <? 128), (c1 <? 2048), (c1 <? 65536); discriminate.
  - cbn [forallb flat_map] in *.
    apply andb_prop in H1 as [Hc1 H1]. apply andb_prop in H2 as [Hc2 H2].
    apply N.ltb_lt in Hc1, Hc2.
    destruct (utf8_encode_prefix_free c1 c2 _ _ Hc1 Hc2 E) as [-> E'].
    f_equal. apply IH; assumption.
Qed.

Lemma urlencode_injective v1 v2 :
  well_formed v1 = true -> well_formed v2 = true ->
  urlencode v1 = urlencode v2 ->
  WHATWG.scalar_values v1 = WHATWG.scalar_values v2.
Proof.
  intros H1 H2 E.
  apply utf8_injective; try (apply scalar_values_bound; assumption).
  change (utf8_bytes v1 = utf8_bytes v2).
  rewrite <- (proj2 (urlencode_round_trip v1 H1)),
          <- (proj2 (urlencode_round_trip v2 H2)), E. reflexivity.
Qed.

(** Property X14: two settings with the same link agree on the four values
    it carries: name and raw endpoints (as sequences of Unicode scalar
    values, which is what the encoder reads of a string), lock flag and
    selection mode. *)
Theorem share_link_determines_settings (s1 s2 : Store) :
  well_formed (name s1) = true -> well_formed (defaultInstance s1) = true ->
  well_formed (name s2) = true -> well_formed (defaultInstance s2) = true ->
  demoParams s1 = demoParams s2 ->
  WHATWG.scalar_values (name s1) = WHATWG.scalar_values (name s2) /\
  WHATWG.scalar_values (defaultInstance s1) =
    WHATWG.scalar_values (defaultInstance s2) /\
  lockToDefaultInstance s1 = lockToDefaultInstance s2 /\
  instanceSelectionMode s1 = instanceSelectionMode s2.
Proof.
  intros Hn1 Hi1 Hn2 Hi2 E.
  apply (f_equal (split AMP)) in E. rewrite !split_fields in E.
  unfold link_fields in E. injection E as En Ei El Em.
  repeat apply conj.
  - apply urlencode_injective; assumption.
  - apply urlencode_injective; assumption.
  - destruct (lockToDefaultInstance s1), (lockToDefaultInstance s2);
      (reflexivity || discriminate).
  - destruct (instanceSelectionMode s1), (instanceSelectionMode s2);
      (reflexivity || discriminate).
Qed.

End ShareLinkInjective.

Lemma share_link_determines_settings_witness :
  lockToDefaultInstance padded = lockToDefaultInstance
    (settings (js " Blorp ") (js "https://a.com, https://b.com") false
              DEFAULT_FIRST KUBERNETES).
Proof.
  apply (ShareLinkInjective.share_link_determines_settings padded
           (settings (js " Blorp ") (js "https://a.com, https://b.com") false
                     DEFAULT_FIRST KUBERNETES));
    vm_compute; reflexivity.
Defined.

(** ** [copyToClipboard] *)

Module ClipboardFacts.
Import Clipboard.

Ltac step b :=
  match goal with
  | |- context [throws b ?done ?o] =>
      let E := fresh "E" in destruct (throws b done o) eqn:E
  end.

(** Property X15: with the Clipboard API present the only operations are
    [writeText] and, after a failure, [console.error]; unless
    [console.error] itself throws the promise resolves, to [true] exactly
    when [writeText] succeeded. *)
Theorem clipboard_api_path (b : Browser) (text : jstring) :
  has_clipboard b = true ->
  let '(done, outcome) := copyToClipboard b text [] in
  (throws b [] (writeText text) = false ->
   done = [writeText text] /\ outcome = Return true) /\
  (throws b [] (writeText text) = true ->
   done = [writeText text; console_error "Clipboard API copy failed:"] /\
   (throws b [writeText text] (console_error "Clipboard API copy failed:") = false ->
    outcome = Return false)).
Proof.
  intros H. unfold copyToClipboard. rewrite H. cbn [negb].
  unfold try_catch, bind, call, ret. cbn [app].
  destruct (throws b [] (writeText text)) eqn:E.
  - destruct (throws b [writeText text] (console_error "Clipboard API copy failed:"));
      (split; [discriminate|]); intros _; (split; [reflexivity|]);
      [discriminate|reflexivity].
  - split; [|discriminate]. intros _. split; reflexivity.
Qed.

(** Property X16: without the Clipboard API, whenever the promise resolves,
    the text area was appended once and removed by the last operation, the
    answer is [true] exactly when no error was logged, and then
    [execCommand] did not throw.  The promise rejects only if an operation
    outside the [try], the logging or the removal in the handler throws. *)
Theorem fallback_path (b : Browser) (text : jstring) :
  has_clipboard b = false ->
  let '(done, outcome) := copyToClipboard b text [] in
  forall answer, outcome = Return answer ->
    length (filter is_append done) = 1%nat /\
    last done focus = removeChild_textArea /\
    answer = negb (existsb is_console_error done) /\
    (answer = true ->
     throws b [createElement_textarea; set_value text; set_position_fixed;
               set_opacity_0; appendChild_textArea; focus; select]
            execCommand_copy = false).
Proof.
  intros H. unfold copyToClipboard. rewrite H. cbn [negb].
  unfold try_catch, bind, call, ret. cbn [app].
  repeat (step b; cbn [app]); intros answer Ha;
    first [discriminate Ha | injection Ha as <-];
    repeat apply conj; try reflexivity; try (intros; congruence).
Qed.

End ClipboardFacts.

Lemma clipboard_api_path_witness :
  Clipboard.copyToClipboard
    {| Clipboard.has_clipboard := true; Clipboard.throws := fun _ _ => false |}
    (js "text") [] = ([Clipboard.writeText (js "text")], Return true).
Proof.
  pose proof (ClipboardFacts.clipboard_api_path
                {| Clipboard.has_clipboard := true;
                   Clipboard.throws := fun _ _ => false |}
                (js "text") eq_refl) as H.
  destruct (Clipboard.copyToClipboard _ _ _) as [done outcome].
  destruct H as [H _]. destruct (H eq_refl) as [-> ->]. reflexivity.
Defined.

Lemma fallback_path_witness :
  snd (Clipboard.copyToClipboard
         {| Clipboard.has_clipboard := false;
            Clipboard.throws := fun _ o =>
              match o with Clipboard.execCommand_copy => true | _ => false end |}
         (js "text") []) = Return false /\
  (Return false = Return false ->
   length (filter Clipboard.is_append
             (fst (Clipboard.copyToClipboard
                     {| Clipboard.has_clipboard := false;
                        Clipboard.throws := fun _ o =>
                          match o with
                          | Clipboard.execCommand_copy => true
                          | _ => false
                          end |}
                     (js "text") []))) = 1%nat).
Proof.
  split; [vm_compute; reflexivity|].
  pose proof (ClipboardFacts.fallback_path
                {| Clipboard.has_clipboard := false;
                   Clipboard.throws := fun _ o =>
                     match o with Clipboard.execCommand_copy => true | _ => false end |}
                (js "text") eq_refl) as H.
  destruct (Clipboard.copyToClipboard _ _ _) as [done outcome] eqn:E.
  assert (Ho : outcome = Return false).
  { change outcome with (snd (done, outcome)). rewrite <- E. vm_compute. reflexivity. }
  intros _. cbn [fst]. exact (proj1 (H false Ho)).
Defined.

(** ** [dedent] around quoted values *)

Module DedentExact.
Import Occ DedentFacts TemplateFacts TwoLines FlagFacts RendererMore.

(** *** Lines of a text with a character glued in *)

Lemma split_glue sep c X Z :
  c <> sep ->
  split sep (X ++ c :: Z) =
  removelast (split sep X) ++
  (last (split sep X) [] ++ c :: hd [] (split sep Z)) :: tl (split sep Z).
Proof.
  intros Hc. induction X as [|x X IH].
  - cbn [app split]. apply N.eqb_neq in Hc. rewrite Hc.
    pose proof (split_nonempty sep Z) as Hz.
    destruct (split sep Z) as [|h t]; [congruence|]. reflexivity.
  - rewrite <- app_comm_cons. cbn [split]. rewrite IH.
    pose proof (split_nonempty sep X) as Hx.
    destruct (split sep X) as [|h0 t0]; [congruence|].
    destruct (x =? sep).
    + destruct t0; reflexivity.
    + destruct t0 as [|h1 t1]; reflexivity.
Qed.

Lemma join_glue (s : jstring) (P : list jstring) (a b : jstring)
  (T : list jstring) :
  join s (P ++ (a ++ b) :: T) = join s (P ++ [a]) ++ join s (b :: T).
Proof.
  induction P as [|p P IH].
  - cbn [app]. destruct T as [|t T].
    + reflexivity.
    + rewrite (join_cons s (a ++ b)) by discriminate.
      rewrite (join_cons s b) by discriminate.
      cbn [join]. rewrite <- app_assoc. reflexivity.
  - cbn [app].
    rewrite (join_cons s p (P ++ (a ++ b) :: T)) by (destruct P; discriminate).
    rewrite (join_cons s p (P ++ [a])) by (destruct P; discriminate).
    rewrite IH, <- !app_assoc. reflexivity.
Qed.

(** *** Indentation does not look behind a character that is not white *)

Lemma indent_of_behind l q R R' :
  is_ws q = false -> indent_of (l ++ q :: R) = indent_of (l ++ q :: R').
Proof.
  intros Hq. unfold indent_of.
  assert (H : forall R0,
    (takeWhile is_ws (l ++ q :: R0) = takeWhile is_ws (l ++ [q])) /\
    (dropWhile is_ws (l ++ q :: R0) = [] <-> dropWhile is_ws (l ++ [q]) = [])).
  { intros R0. induction l as [|x l IH].
    - cbn [app takeWhile dropWhile]. rewrite Hq. split; [reflexivity|].
      split; discriminate.
    - cbn [app takeWhile dropWhile]. destruct (is_ws x).
      + destruct IH as [IH1 IH2]. rewrite IH1. split; [reflexivity|exact IH2].
      + split; [reflexivity|]. split; discriminate. }
  destruct (H R) as [T1 D1]. destruct (H R') as [T2 D2].
  rewrite T1, T2.
  destruct (takeWhile is_ws (l ++ [q])); [reflexivity|].
  destruct (dropWhile is_ws (l ++ q :: R)) eqn:E1,
           (dropWhile is_ws (l ++ q :: R')) eqn:E2; try reflexivity.
  - assert (X : dropWhile is_ws (l ++ [q]) = []) by (apply D1; reflexivity).
    apply D2 in X. congruence.
  - assert (X : dropWhile is_ws (l ++ [q]) = []) by (apply D2; reflexivity).
    apply D1 in X. congruence.
Qed.

Lemma mindent_from_ext L L' :
  map indent_of L = map indent_of L' ->
  forall acc, mindent_from acc L = mindent_from acc L'.
Proof.
  revert L'. induction L as [|l L IH]; intros [|l' L'] H acc;
    try discriminate; [reflexivity|].
  cbn [map] in H. injection H as Hl HL. cbn [mindent_from]. rewrite Hl.
  destruct (indent_of l'); [destruct acc as [[|a]|]|]; apply IH; exact HL.
Qed.

(** The smallest indentation does not depend on a value that stays on its
    line behind a character that is not white. *)
Lemma mindent_hole q v X Z :
  is_ws q = false -> absent NL v = true ->
  mindent (split NL (X ++ q :: v ++ q :: Z)) = mindent (split NL (X ++ q :: Z)).
Proof.
  intros Hq Hv.
  assert (Hne : q <> NL) by (intros ->; discriminate).
  unfold mindent. apply mindent_from_ext.
  rewrite (split_glue NL q X (v ++ q :: Z) Hne), (split_glue NL q X Z Hne).
  rewrite (split_glue NL q v Z Hne), (split_absent NL v Hv).
  cbn [removelast last app hd tl].
  rewrite !map_app. cbn [map]. f_equal. f_equal.
  apply indent_of_behind. exact Hq.
Qed.

(** *** Stripping *)

Lemma strip_line_stays m (l : jstring) (q : code_unit) (R : jstring) :
  (q =? SP) || (q =? TAB) = false -> stays m l = true ->
  strip_line m (l ++ q :: R) = strip_line m l ++ q :: R.
Proof.
  intros Hq Hs. unfold strip_line, stays in *. destruct l as [|h t].
  - cbn [app]. rewrite Hq. reflexivity.
  - cbn [app]. destruct ((h =? SP) || (h =? TAB)); [|reflexivity].
    cbn [negb orb] in Hs. apply Nat.leb_le in Hs. unfold slice.
    change (h :: t ++ q :: R) with ((h :: t) ++ q :: R).
    rewrite skipn_app.
    replace (m - length (h :: t))%nat with 0%nat by lia. reflexivity.
Qed.

Lemma join_head (s a b : jstring) (T : list jstring) :
  join s ((a ++ b) :: T) = a ++ join s (b :: T).
Proof.
  destruct T as [|t T]; [reflexivity|].
  rewrite (join_cons s (a ++ b)) by discriminate.
  rewrite (join_cons s b) by discriminate.
  rewrite <- app_assoc. reflexivity.
Qed.

Lemma strip_from_sep f m (X : jstring) (q : code_unit) (Z : jstring) :
  is_ws q = false -> last_line_stays f m X = true ->
  strip_from f m (X ++ q :: Z) = strip_from f m X ++ q :: strip_from false m Z.
Proof.
  intros Hq Hs.
  assert (Hne : q <> NL) by (intros ->; discriminate).
  assert (Hq' : (q =? SP) || (q =? TAB) = false).
  { destruct ((q =? SP) || (q =? TAB)) eqn:E; [|reflexivity].
    apply SP_TAB_ws in E. congruence. }
  unfold strip_from, last_line_stays in *.
  rewrite (split_glue NL q X Z Hne).
  pose proof (split_nonempty NL X) as HX. pose proof (split_nonempty NL Z) as HZ.
  destruct (split NL X) as [|l0 rest]; [congruence|].
  destruct (split NL Z) as [|hZ tZ]; [congruence|].
  cbn [hd tl]. destruct rest as [|l1 rest].
  - cbn [removelast last app length Nat.eqb] in *. cbn [map].
    rewrite andb_true_r in Hs.
    assert (E : (if f then strip_line m (l0 ++ q :: hZ) else l0 ++ q :: hZ) =
                (if f then strip_line m l0 else l0) ++ q :: hZ).
    { destruct f; [|reflexivity]. apply strip_line_stays; assumption. }
    rewrite E, join_head.
    change (q :: hZ) with ([q] ++ hZ). rewrite join_head. reflexivity.
  - destruct (exists_last (l := l1 :: rest)) as (RL & lst & ER); [discriminate|].
    rewrite ER in *. clear ER l1 rest.
    assert (E1 : removelast (l0 :: RL ++ [lst]) = l0 :: RL).
    { change (l0 :: RL ++ [lst]) with ((l0 :: RL) ++ [lst]).
      apply removelast_last. }
    assert (E2 : last (l0 :: RL ++ [lst]) [] = lst).
    { change (l0 :: RL ++ [lst]) with ((l0 :: RL) ++ [lst]). apply last_last. }
    rewrite E1, E2 in *.
    assert (Hl : stays m lst = true).
    { destruct (negb f && (length (l0 :: RL ++ [lst]) =? 1)%nat) eqn:E;
        [|exact Hs].
      apply andb_prop in E as [_ E]. apply Nat.eqb_eq in E.
      cbn [length] in E. rewrite length_app in E. cbn [length] in E. lia. }
    cbn [app]. rewrite !map_app. cbn [map].
    rewrite (strip_line_stays m lst q hZ Hq' Hl).
    etransitivity;
      [exact (join_glue [NL]
                ((if f then strip_line m l0 else l0) :: map (strip_line m) RL)
                (strip_line m lst) (q :: hZ) (map (strip_line m) tZ))|].
    f_equal. exact (join_head [NL] [q] hZ (map (strip_line m) tZ)).
Qed.

Lemma strip_from_plain f m v :
  absent NL v = true -> strip_from f m v = (if f then strip_line m v else v).
Proof.
  intros H. unfold strip_from. rewrite (split_absent NL v H). reflexivity.
Qed.

Lemma last_line_stays_plain m v :
  absent NL v = true -> last_line_stays false m v = true.
Proof.
  intros H. unfold last_line_stays. rewrite (split_absent NL v H). reflexivity.
Qed.

Lemma strip_indentation_Some m s :
  mindent (split NL s) = Some m -> strip_indentation s = strip_from true m s.
Proof.
  intros H. unfold strip_indentation, strip_from. cbv zeta. rewrite H.
  pose proof (split_nonempty NL s) as Hs.
  destruct (split NL s); [congruence|reflexivity].
Qed.

(** *** Trimming and the escaped line feed *)

Lemma dropWhile_sep p (X : jstring) (c : code_unit) (R : jstring) :
  p c = false -> dropWhile p (X ++ c :: R) = dropWhile p X ++ c :: R.
Proof.
  intros H. induction X as [|x X IH]; cbn [app dropWhile].
  - rewrite H. reflexivity.
  - destruct (p x); [exact IH|reflexivity].
Qed.

Lemma trimStart_sep (X : jstring) (c : code_unit) (R : jstring) :
  is_ws c = false -> trimStart (X ++ c :: R) = trimStart X ++ c :: R.
Proof. apply dropWhile_sep. Qed.

Lemma trimEnd_sep (X : jstring) (c : code_unit) (Z : jstring) :
  is_ws c = false -> trimEnd (X ++ c :: Z) = X ++ c :: trimEnd Z.
Proof.
  intros H. unfold trimEnd. rewrite rev_app_distr. cbn [rev].
  rewrite <- app_assoc. cbn [app]. rewrite (dropWhile_sep is_ws _ c _ H).
  rewrite rev_app_distr. cbn [rev]. rewrite rev_involutive, <- app_assoc.
  reflexivity.
Qed.

Lemma replace2_sep a b y (c : code_unit) (Z : jstring) :
  c <> a -> c <> b ->
  forall X : jstring,
  replace2 a b y (X ++ c :: Z) = replace2 a b y X ++ c :: replace2 a b y Z.
Proof.
  intros Ha Hb. apply N.eqb_neq in Ha, Hb.
  assert (H0 : replace2 a b y (c :: Z) = c :: replace2 a b y Z).
  { destruct Z as [|d Z]; [reflexivity|]. cbn [replace2]. rewrite Ha.
    reflexivity. }
  apply (list_ind2 (fun X =>
    replace2 a b y (X ++ c :: Z) = replace2 a b y X ++ c :: replace2 a b y Z)).
  - exact H0.
  - intros x. cbn [app]. change (replace2 a b y [x]) with [x].
    rewrite replace2_cons2, Hb, andb_false_r, H0. reflexivity.
  - intros x d r IH1 IH2. cbn [app]. rewrite !replace2_cons2.
    destruct ((x =? a) && (d =? b)).
    + cbn [app]. f_equal. exact IH1.
    + cbn [app]. f_equal. exact IH2.
Qed.

Lemma replace2_absent a b y (s : jstring) :
  absent a s = true -> replace2 a b y s = s.
Proof.
  induction s as [|c r IH]; [reflexivity|]. cbn [absent forallb]. intros H.
  apply andb_prop in H as [Hc Hr]. destruct r as [|d r']; [reflexivity|].
  rewrite replace2_cons2. apply negb_true_iff in Hc. rewrite Hc. cbn [andb].
  f_equal. apply IH. exact Hr.
Qed.

(** *** The two quoted values *)

Lemma plain_value_parts v :
  plain_value v = true -> absent NL v = true /\ absent BS v = true.
Proof. intros H. apply andb_prop in H. exact H. Qed.

(** What [dedent] does to the text around two quoted values that stay on
    their line and hold no backslash: [m] columns go from the lines of the
    text around them, the ends are trimmed, and the values are untouched. *)
Lemma finish_fill m A n B i C :
  plain_value n = true -> plain_value i = true ->
  mindent (split NL (A ++ DQ :: B ++ DQ :: C)) = Some m ->
  last_line_stays true m A = true -> last_line_stays false m B = true ->
  finish (fill A n B i C) =
  fill (replace2 BS 110 NL (trimStart (strip_from true m A))) n
       (replace2 BS 110 NL (strip_from false m B)) i
       (replace2 BS 110 NL (trimEnd (strip_from false m C))).
Proof.
  intros Hn Hi Hm HA HB.
  apply plain_value_parts in Hn as [Hn1 Hn2].
  apply plain_value_parts in Hi as [Hi1 Hi2].
  assert (Hq : is_ws DQ = false) by reflexivity.
  assert (Ha : DQ <> BS) by discriminate.
  assert (Hb : DQ <> 110) by discriminate.
  unfold finish, fill.
  rewrite (strip_indentation_Some m).
  2:{ rewrite (mindent_hole DQ n A _ Hq Hn1).
      replace (A ++ DQ :: B ++ DQ :: i ++ DQ :: C)
        with ((A ++ DQ :: B) ++ DQ :: i ++ DQ :: C)
        by (rewrite <- app_assoc; reflexivity).
      rewrite (mindent_hole DQ i _ C Hq Hi1).
      rewrite <- app_assoc. exact Hm. }
  rewrite (strip_from_sep true m A DQ _ Hq HA).
  rewrite (strip_from_sep false m n DQ _ Hq (last_line_stays_plain m n Hn1)).
  rewrite (strip_from_plain false m n Hn1).
  rewrite (strip_from_sep false m B DQ _ Hq HB).
  rewrite (strip_from_sep false m i DQ _ Hq (last_line_stays_plain m i Hi1)).
  rewrite (strip_from_plain false m i Hi1).
  unfold trim. rewrite (trimStart_sep _ DQ _ Hq).
  set (A1 := trimStart (strip_from true m A)).
  set (B1 := strip_from false m B). set (C1 := strip_from false m C).
  replace (A1 ++ DQ :: n ++ DQ :: B1 ++ DQ :: i ++ DQ :: C1)
    with ((A1 ++ DQ :: n ++ DQ :: B1 ++ DQ :: i) ++ DQ :: C1)
    by (repeat (rewrite <- ?app_assoc, <- ?app_comm_cons); reflexivity).
  rewrite (trimEnd_sep _ DQ _ Hq).
  repeat (rewrite <- ?app_assoc, <- ?app_comm_cons).
  rewrite (replace2_sep BS 110 NL DQ _ Ha Hb A1).
  rewrite (replace2_sep BS 110 NL DQ _ Ha Hb n), (replace2_absent BS 110 NL n Hn2).
  rewrite (replace2_sep BS 110 NL DQ _ Ha Hb B1).
  rewrite (replace2_sep BS 110 NL DQ _ Ha Hb i), (replace2_absent BS 110 NL i Hi2).
  reflexivity.
Qed.

(** A second [trim] only touches the ends. *)
Lemma trim_fill A n B i C :
  trim (fill A n B i C) = fill (trimStart A) n B i (trimEnd C).
Proof.
  assert (Hq : is_ws DQ = false) by reflexivity.
  unfold trim, fill. rewrite (trimStart_sep _ DQ _ Hq).
  replace (trimStart A ++ DQ :: n ++ DQ :: B ++ DQ :: i ++ DQ :: C)
    with ((trimStart A ++ DQ :: n ++ DQ :: B ++ DQ :: i) ++ DQ :: C)
    by (repeat (rewrite <- ?app_assoc, <- ?app_comm_cons); reflexivity).
  rewrite (trimEnd_sep _ DQ _ Hq).
  repeat (rewrite <- ?app_assoc, <- ?app_comm_cons). reflexivity.
Qed.

End DedentExact.

(** ** The artifacts, character by character *)

Module ExactOutput.
Import Occ DedentFacts TemplateFacts DedentExact.

(** The renderers' templates around the two quoted values. *)
Lemma dedent_fill m r0 r1 r2 r3 r4 n i l md :
  quoted_shape (unescape_raw r0) (unescape_raw r1) (unescape_raw r2) = true ->
  plain_value n = true -> plain_value i = true ->
  mindent (split NL (opens (unescape_raw r0) ++ DQ :: between (unescape_raw r1) ++
                     DQ :: tail_text r2 r3 r4 l md)) = Some m ->
  last_line_stays true m (opens (unescape_raw r0)) = true ->
  last_line_stays false m (between (unescape_raw r1)) = true ->
  dedent [r0; r1; r2; r3; r4] [n; i; l; md] =
  fill (replace2 BS 110 NL (trimStart (strip_from true m (opens (unescape_raw r0)))))
       n
       (replace2 BS 110 NL (strip_from false m (between (unescape_raw r1))))
       i
       (replace2 BS 110 NL (trimEnd (strip_from false m (tail_text r2 r3 r4 l md)))).
Proof.
  intros Hshape Hn Hi Hm HA HB. unfold dedent.
  rewrite (interpolate_quoted r0 r1 r2 r3 r4 n i l md Hshape).
  exact (finish_fill m _ n _ i _ Hn Hi Hm HA HB).
Qed.

(** Both sides are the same fixed text around the two values. *)
Ltac same_text n i :=
  unfold fill, command_text, dockerfile_text, compose_text, kube_text,
         kube_deployment, kube_service, text, quoted;
  cbn [join app map];
  repeat (rewrite <- ?app_assoc, <- ?app_comm_cons);
  generalize (@app code_unit n); generalize (@app code_unit i);
  intros fi fn; vm_compute; reflexivity.

Ltac fields :=
  cbn [REACT_APP_NAME REACT_APP_DEFAULT_INSTANCE hasMultipleInstances
       REACT_APP_LOCK_TO_DEFAULT_INSTANCE REACT_APP_INSTANCE_SELECTION_MODE].

(** Property X8: the whole command, when the trimmed name and the re-joined
    endpoints hold no line feed and no backslash: the fixed lines flush left
    with the continuation lines two columns in, the two values between their
    quotes as they are, and the selection mode on a line of its own when the
    flag is set. *)
Theorem command_text_exact (c : Config) :
  plain_value (trim (REACT_APP_NAME c)) = true ->
  plain_value (instances_of (REACT_APP_DEFAULT_INSTANCE c)) = true ->
  getDockerCommand c =
  command_text (trim (REACT_APP_NAME c))
               (instances_of (REACT_APP_DEFAULT_INSTANCE c))
               (REACT_APP_LOCK_TO_DEFAULT_INSTANCE c)
               (if hasMultipleInstances c
                then Some (REACT_APP_INSTANCE_SELECTION_MODE c) else None).
Proof.
  destruct c as [n raw lock mode multi]. unfold getDockerCommand. fields.
  cbv zeta. unfold DockerCommand.mode_flag. fields.
  generalize (trim n), (instances_of raw). intros n' i' Hn Hi.
  destruct lock, mode, multi;
    (rewrite (dedent_fill 4) by (assumption || closed); same_text n' i').
Qed.

(** Property X9: the whole Dockerfile, when the trimmed name and the
    re-joined endpoints hold no line feed and no backslash: every line flush
    left, the two values between their quotes as they are, and an empty line
    in the place of the selection mode when the flag is not set. *)
Theorem dockerfile_text_exact (c : Config) :
  plain_value (trim (REACT_APP_NAME c)) = true ->
  plain_value (instances_of (REACT_APP_DEFAULT_INSTANCE c)) = true ->
  getDockerfile c =
  dockerfile_text (trim (REACT_APP_NAME c))
                  (instances_of (REACT_APP_DEFAULT_INSTANCE c))
                  (REACT_APP_LOCK_TO_DEFAULT_INSTANCE c)
                  (if hasMultipleInstances c
                   then Some (REACT_APP_INSTANCE_SELECTION_MODE c) else None).
Proof.
  destruct c as [n raw lock mode multi]. unfold getDockerfile. fields.
  cbv zeta. unfold Dockerfile.mode_env. fields.
  generalize (trim n), (instances_of raw). intros n' i' Hn Hi.
  destruct lock, mode, multi;
    (rewrite (dedent_fill 4) by (assumption || closed); rewrite trim_fill;
     same_text n' i').
Qed.

(** Property X10: the whole Compose file, when the trimmed name and the
    re-joined endpoints hold no line feed and no backslash; the entry of the
    selection mode, when the flag is set, comes last with two columns of
    indentation, four less than the entries before it. *)
Theorem compose_text_exact (c : Config) :
  plain_value (trim (REACT_APP_NAME c)) = true ->
  plain_value (instances_of (REACT_APP_DEFAULT_INSTANCE c)) = true ->
  getCompose c =
  compose_text (trim (REACT_APP_NAME c))
               (instances_of (REACT_APP_DEFAULT_INSTANCE c))
               (REACT_APP_LOCK_TO_DEFAULT_INSTANCE c)
               (if hasMultipleInstances c
                then Some (REACT_APP_INSTANCE_SELECTION_MODE c) else None).
Proof.
  destruct c as [n raw lock mode multi]. unfold getCompose. fields.
  cbv zeta. unfold Compose.maybeMode. fields.
  generalize (trim n), (instances_of raw). intros n' i' Hn Hi.
  destruct lock, mode, multi;
    (rewrite (dedent_fill 4) by (assumption || closed); rewrite trim_fill;
     same_text n' i').
Qed.

(** Property X11: the whole Kubernetes manifest, when the trimmed name and
    the re-joined endpoints hold no line feed and no backslash: flush left
    for one endpoint, with a line of spaces before the service document;
    with several, every line but the first keeps two columns and the value
    line of the selection-mode entry keeps none. *)
Theorem kube_text_exact (c : Config) :
  plain_value (trim (REACT_APP_NAME c)) = true ->
  plain_value (instances_of (REACT_APP_DEFAULT_INSTANCE c)) = true ->
  getKube c =
  kube_text (trim (REACT_APP_NAME c))
            (instances_of (REACT_APP_DEFAULT_INSTANCE c))
            (REACT_APP_LOCK_TO_DEFAULT_INSTANCE c)
            (if hasMultipleInstances c
             then Some (REACT_APP_INSTANCE_SELECTION_MODE c) else None).
Proof.
  destruct c as [n raw lock mode multi]. unfold getKube. fields.
  cbv zeta. unfold Kube.maybeMode. fields.
  generalize (trim n), (instances_of raw). intros n' i' Hn Hi.
  destruct lock, mode, multi;
    (first [ rewrite (dedent_fill 2) by (assumption || closed)
           | rewrite (dedent_fill 4) by (assumption || closed) ];
     rewrite trim_fill; same_text n' i').
Qed.

End ExactOutput.

Lemma command_text_exact_witness :
  getDockerCommand (App.config padded) =
  command_text (js "Blorp") (js "https://a.com,https://b.com") false
               (Some DEFAULT_FIRST).
Proof.
  apply (ExactOutput.command_text_exact (App.config padded));
    vm_compute; reflexivity.
Defined.

Lemma dockerfile_text_exact_witness :
  getDockerfile (App.config padded) =
  dockerfile_text (js "Blorp") (js "https://a.com,https://b.com") false
                  (Some DEFAULT_FIRST).
Proof.
  apply (ExactOutput.dockerfile_text_exact (App.config padded));
    vm_compute; reflexivity.
Defined.

Lemma compose_text_exact_witness :
  getCompose (App.config acme) =
  compose_text (js "Acme") (js "https://a.com,https://b.com") true
               (Some DEFAULT_RANDOM).
Proof.
  apply (ExactOutput.compose_text_exact (App.config acme));
    vm_compute; reflexivity.
Defined.

Lemma kube_text_exact_witness :
  getKube (App.config acme) =
  kube_text (js "Acme") (js "https://a.com,https://b.com") true
            (Some DEFAULT_RANDOM).
Proof.
  apply (ExactOutput.kube_text_exact (App.config acme));
    vm_compute; reflexivity.
Defined.
